(** * BanList: the policy-list model of [src/models/BanList.ts]

    A shallow embedding of the [BanList] class (the cache of the policy
    rules of one policy room, its reconciliation pass [updateList], the rule
    accessors and [unbanEntity]) and of the [UpdateBatcher] helper, followed
    by the properties of the specification that were checked against them. *)

From stdpp Require Import gmap strings list fin_maps.

Open Scope string_scope.
Open Scope Z_scope.

(** ** Rule types and their historical aliases *)

Definition RULE_USER : string := "m.policy.rule.user".
Definition RULE_ROOM : string := "m.policy.rule.room".
Definition RULE_SERVER : string := "m.policy.rule.server".

(** The order matters: the most recent type comes first. *)
Definition USER_RULE_TYPES : list string :=
  [RULE_USER; "m.room.rule.user"; "org.matrix.mjolnir.rule.user"].
Definition ROOM_RULE_TYPES : list string :=
  [RULE_ROOM; "m.room.rule.room"; "org.matrix.mjolnir.rule.room"].
Definition SERVER_RULE_TYPES : list string :=
  [RULE_SERVER; "m.room.rule.server"; "org.matrix.mjolnir.rule.server"].
Definition ALL_RULE_TYPES : list string :=
  USER_RULE_TYPES ++ ROOM_RULE_TYPES ++ SERVER_RULE_TYPES.

Definition SHORTCODE_EVENT_TYPE : string := "org.matrix.mjolnir.shortcode".

(** Modelled from the spec: the constant [RECOMMENDATION_BAN] is imported
    from [./ListRule], which is not part of the sources at hand; the
    specification names the recommendation the accessors keep "ban". *)
Definition RECOMMENDATION_BAN : string := "ban".

(** [Array.prototype.includes] and [Array.prototype.indexOf] on arrays of
    strings; [indexOf] answers [-1] for a string that does not occur. *)
Definition includes (l : list string) (x : string) : bool :=
  bool_decide (x ∈ l).

Fixpoint indexOf_from (i : Z) (l : list string) (x : string) : Z :=
  match l with
  | [] => -1
  | y :: l' => if decide (y = x) then i else indexOf_from (i + 1) l' x
  end.

Definition indexOf (l : list string) (x : string) : Z := indexOf_from 0 l x.

Definition ruleTypeToStable (rule : string) (unstable : bool) : option string :=
  if includes USER_RULE_TYPES rule then
    Some (if unstable then "org.matrix.mjolnir.rule.user" else RULE_USER)
  else if includes ROOM_RULE_TYPES rule then
    Some (if unstable then "org.matrix.mjolnir.rule.room" else RULE_ROOM)
  else if includes SERVER_RULE_TYPES rule then
    Some (if unstable then "org.matrix.mjolnir.rule.server" else RULE_SERVER)
  else None.

(** ** State events, rules and changes *)

(** Modelled from the spec: the class [ListRule] lives in [./ListRule],
    which is not part of the sources at hand; the specification gives the
    rule as the value [{entity, recommendation, reason, kind}], built by
    [new ListRule(entity, recommendation, reason, kind)]. *)
Record ListRule : Type := mkListRule {
  entity : string;
  recommendation : string;
  reason : string;
  kind : string
}.

(** [unsigned.redacted_because] is the redaction event; the model keeps the
    one field of it that the code reads. *)
Record Redaction : Type := mkRedaction {
  redaction_sender : string
}.

(** [event.unsigned]: the redaction, when there is one, and the rule that
    [updateList] attaches to the events it has parsed. *)
Record Unsigned : Type := mkUnsigned {
  redacted_because : option Redaction;
  rule : option ListRule
}.

(** A state event of the policy room. [content] is a JSON object whose
    fields are strings, or is missing; [unsigned] may be missing as well:
    the code reads it through [?.] in places and directly in others. *)
Record Event : Type := mkEvent {
  type : string;
  state_key : string;
  event_id : string;
  sender : string;
  content : option (gmap string string);
  unsigned : option Unsigned
}.

Inductive ChangeType : Type := Added | Removed | Modified.

Record ListRuleChange : Type := mkChange {
  changeType : ChangeType;
  event : Event;
  change_sender : string;
  change_rule : ListRule;
  previousState : option Event
}.

#[global] Instance ListRule_eq_dec : EqDecision ListRule.
Proof. solve_decision. Defined.
#[global] Instance Redaction_eq_dec : EqDecision Redaction.
Proof. solve_decision. Defined.
#[global] Instance Unsigned_eq_dec : EqDecision Unsigned.
Proof. solve_decision. Defined.
#[global] Instance Event_eq_dec : EqDecision Event.
Proof. solve_decision. Defined.
#[global] Instance ChangeType_eq_dec : EqDecision ChangeType.
Proof. solve_decision. Defined.
#[global] Instance ListRuleChange_eq_dec : EqDecision ListRuleChange.
Proof. solve_decision. Defined.

(** JavaScript truthiness of a field that holds a string or is undefined:
    only a non-empty string is truthy. *)
Definition truthy (v : option string) : bool :=
  match v with
  | Some s => bool_decide (s ≠ "")
  | None => false
  end.

(** [event?.unsigned?.rule] *)
Definition unsigned_rule (ev : Event) : option ListRule :=
  match unsigned ev with
  | Some u => rule u
  | None => None
  end.

(** [event['unsigned']?.['redacted_because']] *)
Definition unsigned_redacted_because (ev : Event) : option Redaction :=
  match unsigned ev with
  | Some u => redacted_because u
  | None => None
  end.

(** ** The list *)

(** The mutable fields of a [BanList]: the shortcode and the map of state
    events, indexed first by (normalised) state type, then by state key. *)
Record BanList : Type := mkBanList {
  shortcode : option string;
  state : gmap string (gmap string Event)
}.

Definition newBanList : BanList := mkBanList None ∅.

Definition getState (l : BanList) (stateType stateKey : string) : option Event :=
  match state l !! stateType with
  | Some typeTable => typeTable !! stateKey
  | None => None
  end.

Definition setState (l : BanList) (stateType stateKey : string) (ev : Event)
  : BanList :=
  match state l !! stateType with
  | Some typeTable =>
      mkBanList (shortcode l) (<[stateType := <[stateKey := ev]> typeTable]> (state l))
  | None =>
      mkBanList (shortcode l) (<[stateType := {[stateKey := ev]}]> (state l))
  end.

(** [rulesOfKind]: the rules attached to the events stored under [kind] that
    are of that kind and recommend a ban. The JavaScript [Map] yields its
    values in insertion order, [map_to_list] in the order of the keys; the
    two lists have the same elements. *)
Definition active_rule (knd : string) (ev : Event) : option ListRule :=
  match unsigned_rule ev with
  | Some r =>
      if bool_decide (kind r = knd) && bool_decide (recommendation r = RECOMMENDATION_BAN)
      then Some r else None
  | None => None
  end.

Definition rulesOfKind (l : BanList) (knd : string) : list ListRule :=
  match state l !! knd with
  | Some stateKeyMap => omap (active_rule knd) (map_to_list stateKeyMap).*2
  | None => []
  end.

Definition serverRules (l : BanList) : list ListRule := rulesOfKind l RULE_SERVER.
Definition userRules (l : BanList) : list ListRule := rulesOfKind l RULE_USER.
Definition roomRules (l : BanList) : list ListRule := rulesOfKind l RULE_ROOM.
Definition allRules (l : BanList) : list ListRule :=
  serverRules l ++ userRules l ++ roomRules l.

(** ** The reconciliation pass, [updateList] *)

(** How one turn of the loop, or the whole pass, ends: normally, with the
    list as it is then and the changes pushed; or with a [TypeError] raised
    by a property access on [undefined], the list keeping what was stored
    before the error. *)
Inductive Completion : Type :=
| Normal (l : BanList) (changes : list ListRuleChange)
| TypeError (l : BanList).

(** The kind of a rule type, by membership in the alias tables. *)
Definition kindOf (t : string) : option string :=
  if includes USER_RULE_TYPES t then Some RULE_USER
  else if includes ROOM_RULE_TYPES t then Some RULE_ROOM
  else if includes SERVER_RULE_TYPES t then Some RULE_SERVER
  else None.

(** The alias table of a kind. *)
Definition aliasTable (knd : string) : list string :=
  if bool_decide (knd = RULE_USER) then USER_RULE_TYPES
  else if bool_decide (knd = RULE_ROOM) then ROOM_RULE_TYPES
  else if bool_decide (knd = RULE_SERVER) then SERVER_RULE_TYPES
  else [].

(** The test on obsolete types: the event is ignored when its type comes
    later in the table of its kind than the type of the stored event. *)
Definition obsolete (knd : string) (ev previous : Event) : bool :=
  if bool_decide (knd = RULE_USER)
     && (indexOf USER_RULE_TYPES (type ev) >? indexOf USER_RULE_TYPES (type previous))
  then true
  else if bool_decide (knd = RULE_ROOM)
     && (indexOf ROOM_RULE_TYPES (type ev) >? indexOf ROOM_RULE_TYPES (type previous))
  then true
  else if bool_decide (knd = RULE_SERVER)
     && (indexOf SERVER_RULE_TYPES (type ev) >? indexOf SERVER_RULE_TYPES (type previous))
  then true
  else false.

(** The classification of the change. The outer [None] is the [TypeError] of
    [Object.keys(undefined)]; the inner one is "nothing has changed". *)
Definition classify (previous : option Event) (ev : Event)
  : option (option ChangeType) :=
  match previous with
  | None => Some (Some Added)
  | Some prev =>
      if bool_decide (event_id prev = event_id ev) then
        match unsigned_redacted_because ev with
        | Some _ => Some (Some Removed)
        | None => Some None
        end
      else
        match content ev with
        | None => None
        | Some c => if bool_decide (c = ∅) then Some (Some Removed)
                    else Some (Some Modified)
        end
  end.

(** [event.unsigned.rule = rule], on an event whose [unsigned] is [u]. *)
Definition attach_rule (ev : Event) (u : Unsigned) (r : ListRule) : Event :=
  mkEvent (type ev) (state_key ev) (event_id ev) (sender ev) (content ev)
          (Some (mkUnsigned (redacted_because u) (Some r))).

(** [new ListRule(entity, recommendation, reason, kind)] from the content
    of an event that has an entity and a recommendation. *)
Definition ruleOf (knd : string) (c : gmap string string) : ListRule :=
  mkListRule (default "" (c !! "entity")) (default "" (c !! "recommendation"))
             (if truthy (c !! "reason") then default "" (c !! "reason")
              else "<no reason>")
             knd.

(** The part of the loop body that parses the rule of an event which has
    just been stored. The event object is shared with the table, so that
    attaching the rule to it updates the stored event as well. *)
Definition parse_rule (l : BanList) (knd : string) (ev : Event)
    (previous : option Event) (ct : option ChangeType) : Completion :=
  match content ev with
  | None => Normal l []
  | Some c =>
      let entity := c !! "entity" in
      let recommendation := c !! "recommendation" in
      if negb (truthy entity) || negb (truthy recommendation) then Normal l []
      else
        let r := ruleOf knd c in
        match unsigned ev with
        | None => TypeError l
        | Some u =>
            let ev' := attach_rule ev u r in
            let l' := setState l knd (state_key ev) ev' in
            match ct with
            | Some t => Normal l' [mkChange t ev' (sender ev) r previous]
            | None => Normal l' []
            end
        end
  end.

(** The loop body from the lookup of the stored event on, for an event of
    kind [knd]: the test on obsolete types, the store, the classification
    and the change. *)
Definition reconcile (l : BanList) (knd : string) (ev : Event) : Completion :=
  let previous := getState l knd (state_key ev) in
  if match previous with Some prev => obsolete knd ev prev | None => false end
  then Normal l []
  else
    let l1 := setState l knd (state_key ev) ev in
    match classify previous ev with
    | None => TypeError l1
    | Some ct =>
        match ct, previous with
        | Some Removed, Some prev =>
            match unsigned_rule prev with
            | Some r =>
                match unsigned ev with
                | None => TypeError l1
                | Some u =>
                    let sndr := match redacted_because u with
                                | Some red => redaction_sender red
                                | None => sender ev
                                end in
                    Normal l1 [mkChange Removed ev sndr r (Some prev)]
                end
            | None => parse_rule l1 knd ev previous ct
            end
        | _, _ => parse_rule l1 knd ev previous ct
        end
    end.

(** One turn of the loop over the fetched state. *)
Definition iteration (l : BanList) (ev : Event) : Completion :=
  if bool_decide (state_key ev = "") && bool_decide (type ev = SHORTCODE_EVENT_TYPE)
  then
    let c := default ∅ (content ev) in
    Normal (mkBanList (if truthy (c !! "shortcode") then c !! "shortcode" else None)
                      (state l)) []
  else if bool_decide (state_key ev = "") || negb (includes ALL_RULE_TYPES (type ev))
  then Normal l []
  else
    match kindOf (type ev) with
    | None => Normal l []
    | Some knd => reconcile l knd ev
    end.

Fixpoint for_of (l : BanList) (changes : list ListRuleChange) (events : list Event)
  : Completion :=
  match events with
  | [] => Normal l changes
  | ev :: rest =>
      match iteration l ev with
      | Normal l' pushed => for_of l' (changes ++ pushed) rest
      | TypeError l' => TypeError l'
      end
  end.

(** [updateList], given the state that [getRoomState] has answered (a
    rejection of that request rejects [updateList] before the list is
    touched). The changes of a pass that completes are both emitted as
    ['BanList.update'] and returned; a pass that raises emits nothing. *)
Definition updateList (l : BanList) (fetched : list Event) : Completion :=
  for_of l [] fetched.

(** *** What the store answers

    The notions the properties below are stated with. *)

(** The content of the event parses to a rule: it has an entity and a
    recommendation. *)
Definition parses (ev : Event) : bool :=
  match content ev with
  | Some c => truthy (c !! "entity") && truthy (c !! "recommendation")
  | None => false
  end.

(** The event carries redaction info. *)
Definition redacted (ev : Event) : bool :=
  bool_decide (is_Some (unsigned_redacted_because ev)).

(** A redaction strips the content of a policy event: an event that carries
    redaction info does not parse to a rule. *)
Definition stripped (ev : Event) : Prop :=
  redacted ev = true → parses ev = false.

(** An event as the store answers it, before the list has attached a rule
    to it. *)
Definition fresh (ev : Event) : Prop := unsigned_rule ev = None.


(** The state of a room holds one event for a type and a state key. *)
Definition record_key (ev : Event) : string * string := (type ev, state_key ev).

(** The event as a pass leaves it in the table: with its rule attached
    when it parses to one. *)
Definition kept (knd : string) (ev : Event) : Event :=
  match content ev, unsigned ev with
  | Some c, Some u => if parses ev then attach_rule ev u (ruleOf knd c) else ev
  | _, _ => ev
  end.


(** *** A few events to run the pass on *)

Definition banContent (ent rsn : string) : gmap string string :=
  {[ "entity" := ent; "recommendation" := "ban"; "reason" := rsn ]}.

Definition noUnsigned : Unsigned := mkUnsigned None None.

Definition ev_add_a : Event :=
  mkEvent RULE_USER "rule:@a" "$1" "@mod" (Some (banContent "@a" "spam")) (Some noUnsigned).
Definition ev_modify_a : Event :=
  mkEvent RULE_USER "rule:@a" "$2" "@mod" (Some (banContent "@a" "more spam")) (Some noUnsigned).
Definition ev_soft_delete_a : Event :=
  mkEvent RULE_USER "rule:@a" "$3" "@admin" (Some ∅) (Some noUnsigned).
Definition ev_add_b : Event :=
  mkEvent RULE_ROOM "rule:#b" "$4" "@mod" (Some (banContent "#b" "abuse")) (Some noUnsigned).
Definition ev_legacy_a : Event :=
  mkEvent "org.matrix.mjolnir.rule.user" "rule:@a" "$5" "@old"
          (Some (banContent "@a" "legacy")) (Some noUnsigned).

Definition ev_redacted : Event :=
  mkEvent RULE_USER "rule:@a" "$1" "@mod" (Some (banContent "@a" "spam"))
          (Some (mkUnsigned (Some (mkRedaction "@admin")) None)).
Definition ev_soft_delete_bare : Event :=
  mkEvent RULE_USER "rule:@a" "$3" "@admin" (Some ∅) None.
Definition ev_legacy_soft_delete : Event :=
  mkEvent "m.room.rule.user" "rule:@a" "$9" "@admin" (Some ∅) (Some noUnsigned).
Definition ev_hard_delete_a : Event :=
  mkEvent RULE_USER "rule:@a" "$1" "@mod" (Some ∅)
          (Some (mkUnsigned (Some (mkRedaction "@admin")) None)).
Definition ev_advice_a : Event :=
  mkEvent RULE_USER "rule:@c" "$6" "@mod"
          (Some {[ "entity" := "@c"; "recommendation" := "org.example.warn" ]})
          (Some noUnsigned).

Definition ev_shortcode : Event :=
  mkEvent SHORTCODE_EVENT_TYPE "" "$7" "@mod" (Some {[ "shortcode" := "spam-list" ]})
          (Some noUnsigned).

Definition changeTypes (c : Completion) : option (list ChangeType) :=
  match c with
  | Normal _ changes => Some (changeType <$> changes)
  | TypeError _ => None
  end.

Definition listOf (c : Completion) : BanList :=
  match c with
  | Normal l _ => l
  | TypeError l => l
  end.

(** The list once it has read the rule for [@a]; the list once it has read
    the redacted form of that event that has no content left; the list that
    has read, three times over, a redacted event that kept its content. *)
Definition list_a : BanList := listOf (updateList newBanList [ev_add_a]).
Definition list_redacted_a : BanList :=
  listOf (updateList newBanList [ev_hard_delete_a]).
Definition list_replayed : BanList :=
  listOf (updateList (listOf (updateList newBanList [ev_redacted])) [ev_redacted]).
Definition list_advice : BanList :=
  listOf (updateList newBanList [ev_add_a; ev_advice_a]).

(** ** [unbanEntity] *)

(** The error a request of the client is rejected with; the code reads its
    [statusCode] only. *)
Record RequestError : Type := mkRequestError {
  statusCode : Z
}.

#[global] Instance RequestError_eq_dec : EqDecision RequestError.
Proof. solve_decision. Defined.

(** The two requests of the Matrix client that [unbanEntity] makes, for the
    room of the list: [getRoomStateEvent] resolves to the content of the
    event or is rejected, [sendStateEvent] resolves to the id of the event
    sent or is rejected. *)
Record MatrixClient : Type := mkMatrixClient {
  getRoomStateEvent : string -> string -> RequestError + gmap string string;
  sendStateEvent : string -> string -> gmap string string -> RequestError + string
}.

(** [Promise.all]: the results when every promise resolves, the reason of a
    rejected one otherwise (of the first one in the array, where the code
    gets the one that is rejected first in time). *)
Fixpoint Promise_all {E A : Type} (ps : list (E + A)) : E + list A :=
  match ps with
  | [] => inr []
  | inl e :: _ => inl e
  | inr a :: ps' =>
      match Promise_all ps' with
      | inl e => inl e
      | inr l => inr (a :: l)
      end
  end.

Inductive Settled : Type :=
| Resolved (b : bool)
| Rejected (e : RequestError).

(** What a call of [unbanEntity] has done: the point lookups and the writes
    it has issued, as (type, state key) and (type, state key, content), and
    how its promise is settled. *)
Record Unban : Type := mkUnban {
  lookups : list (string * string);
  writes : list (string * string * gmap string string);
  settled : Settled
}.

Definition typesToCheck (ruleType : string) : list string :=
  if bool_decide (ruleType = RULE_USER) then USER_RULE_TYPES
  else if bool_decide (ruleType = RULE_SERVER) then SERVER_RULE_TYPES
  else if bool_decide (ruleType = RULE_ROOM) then ROOM_RULE_TYPES
  else [ruleType].

(** One lookup: the state type when the event is there, [null] on a 404,
    the rejection otherwise. *)
Definition lookupType (client : MatrixClient) (stateKey stateType : string)
  : RequestError + option string :=
  match getRoomStateEvent client stateType stateKey with
  | inr _ => inr (Some stateType)
  | inl e => if statusCode e =? 404 then inr None else inl e
  end.

(** The body of [unbanEntity] once the types to check are known. *)
Definition unbanTypes (client : MatrixClient) (stateKey : string)
    (types : list string) : Unban :=
  let looked := (λ stateType, (stateType, stateKey)) <$> types in
  match Promise_all (lookupType client stateKey <$> types) with
  | inl e => mkUnban looked [] (Rejected e)
  | inr found =>
      let typesToRemove := omap (λ e, if truthy e then e else None) found in
      if bool_decide (length typesToRemove = 0%nat) then mkUnban looked [] (Resolved false)
      else
        let sent := (λ stateType, (stateType, stateKey, (∅ : gmap string string)))
                      <$> typesToRemove in
        match Promise_all ((λ stateType, sendStateEvent client stateType stateKey ∅)
                             <$> typesToRemove) with
        | inl e => mkUnban looked sent (Rejected e)
        | inr _ => mkUnban looked sent (Resolved true)
        end
  end.

Definition unbanEntity (client : MatrixClient) (ruleType entity : string) : Unban :=
  unbanTypes client ("rule:" +:+ entity) (typesToCheck ruleType).

(** *** What the store holds

    The notions the properties of [unbanEntity] are stated with. *)

(** The store holds an event of this type for the state key: the point
    lookup resolves. *)
Definition holds (client : MatrixClient) (stateKey stateType : string) : bool :=
  match getRoomStateEvent client stateType stateKey with
  | inr _ => true
  | inl _ => false
  end.

(** The point lookup is rejected, and not with a 404. *)
Definition lookup_failure (client : MatrixClient) (stateKey stateType : string)
  : option RequestError :=
  match getRoomStateEvent client stateType stateKey with
  | inr _ => None
  | inl e => if statusCode e =? 404 then None else Some e
  end.

(** The clearing write is rejected. *)
Definition write_failure (client : MatrixClient) (stateKey stateType : string)
  : option RequestError :=
  match sendStateEvent client stateType stateKey ∅ with
  | inr _ => None
  | inl e => Some e
  end.

(** The clearing write for a type: empty content. *)
Definition clearing (stateKey stateType : string)
  : string * string * gmap string string :=
  (stateType, stateKey, ∅).

(** *** A few clients *)

Definition notFound : RequestError := mkRequestError 404.
Definition serverError : RequestError := mkRequestError 500.

(** A store that holds a rule for [@a] under the current user type and
    under the oldest one, and nothing else. *)
Definition client_two : MatrixClient :=
  mkMatrixClient
    (λ stateType stateKey,
       if bool_decide (stateKey = "rule:@a")
          && (bool_decide (stateType = RULE_USER)
              || bool_decide (stateType = "org.matrix.mjolnir.rule.user"))
       then inr (banContent "@a" "spam") else inl notFound)
    (λ _ _ _, inr "$sent").

(** A store that holds nothing. *)
Definition client_empty : MatrixClient :=
  mkMatrixClient (λ _ _, inl notFound) (λ _ _ _, inr "$sent").

(** A store that fails on the lookup of one of the user types. *)
Definition client_failing : MatrixClient :=
  mkMatrixClient
    (λ stateType _,
       if bool_decide (stateType = "m.room.rule.user") then inl serverError else inr ∅)
    (λ _ _ _, inr "$sent").

(** A store that answers every lookup, the one for the empty type too. *)
Definition client_any : MatrixClient :=
  mkMatrixClient (λ _ _, inr ∅) (λ _ _ _, inr "$sent").

(** ** [UpdateBatcher] *)

Module UpdateBatcher.

Record t : Type := mk {
  isWaiting : bool;
  latestEventId : option string
}.

Definition waitPeriodMS : Z := 200.
Definition maxWaitMS : Z := 3000.

Definition new : t := mk false None.

Definition reset (b : t) : t := mk false None.

(** A call of [checkBatch] suspended at its [await]: its argument, its
    [start] and the time at which its timer resolves. Time is counted in
    milliseconds, and a timer of [waitPeriodMS] resolves exactly that
    long after it is set. *)
Record Loop : Type := mkLoop {
  eventId : string;
  start : Z;
  wake : Z
}.

#[global] Instance Loop_eq_dec : EqDecision Loop.
Proof. solve_decision. Defined.

(** The batcher together with the calls of [checkBatch] in flight and
    the loops that have emitted ['BanList.batch'], oldest first; for a
    loop in [batches], [wake] is the time of the emission. *)
Record World : Type := mkWorld {
  batcher : t;
  loops : list Loop;
  batches : list Loop
}.

Definition init : World := mkWorld new [] [].

(** [checkBatch] from the moment its timer resolves: the test of the
    [do ... while], then either the next timer or [reset] and the
    emission. *)
Definition checkBatch_resume (b : t) (p : Loop) : t * option Loop :=
  if (wake p - start p <? maxWaitMS)
     && negb (bool_decide (latestEventId b = Some (eventId p)))
  then (b, Some (mkLoop (eventId p) (start p) (wake p + waitPeriodMS)))
  else (reset b, None).

(** [addToBatch] at time [now]. *)
Definition addToBatch (now : Z) (id : string) (w : World) : World :=
  if isWaiting (batcher w) then
    mkWorld (mk (isWaiting (batcher w)) (Some id)) (loops w) (batches w)
  else
    mkWorld (mk true (Some id))
            (loops w ++ [mkLoop id now (now + waitPeriodMS)])
            (batches w).

(** The loop whose timer resolves first (the oldest one among equals). *)
Fixpoint earliest (ls : list Loop) : option Loop :=
  match ls with
  | [] => None
  | p :: ls' =>
      match earliest ls' with
      | Some q => if wake q <? wake p then Some q else Some p
      | None => Some p
      end
  end.

Fixpoint replace (p : Loop) (by_ : option Loop) (ls : list Loop) : list Loop :=
  match ls with
  | [] => []
  | q :: ls' =>
      if decide (q = p) then
        match by_ with Some p' => p' :: ls' | None => ls' end
      else q :: replace p by_ ls'
  end.

(** The timer of [p] resolves. *)
Definition fire (p : Loop) (w : World) : World :=
  match checkBatch_resume (batcher w) p with
  | (b, Some p') => mkWorld b (replace p (Some p') (loops w)) (batches w)
  | (b, None) => mkWorld b (replace p None (loops w)) (batches w ++ [p])
  end.

(** Let the time pass until [now]: the timers due by then resolve, in
    order. A timer that is due at the very time of a notification
    resolves before the notification is handled. *)
Fixpoint advance (fuel : nat) (now : Z) (w : World) : World :=
  match fuel with
  | O => w
  | S fuel' =>
      match earliest (loops w) with
      | Some p => if wake p <=? now then advance fuel' now (fire p w) else w
      | None => w
      end
  end.

(** Each resumption moves the timer of its loop by [waitPeriodMS] or ends
    the loop: this many resumptions bring every timer past [now]. *)
Definition resumptions (now : Z) (p : Loop) : nat :=
  Z.to_nat ((now - wake p) / waitPeriodMS + 1).

Definition advance_to (now : Z) (w : World) : World :=
  advance (foldr (λ p n, (resumptions now p + n)%nat) O (loops w)) now w.

(** The time by which every loop in flight has ended, whatever happens. *)
Definition horizon (w : World) : Z :=
  foldr (λ p h, Z.max (Z.max (wake p) (start p + maxWaitMS + waitPeriodMS)) h) 0 (loops w).

(** No more notifications: the loops in flight run to their end. *)
Definition quiesce (w : World) : World := advance_to (horizon w) w.

(** The notifications [(time, event id)], in the order they arrive. *)
Fixpoint run (inputs : list (Z * string)) (w : World) : World :=
  match inputs with
  | [] => w
  | (now, id) :: rest => run rest (addToBatch now id (advance_to now w))
  end.

(** The loop waits for its [k]-th timer, with [k] at most 15. *)
Definition on_schedule (p : Loop) : Prop :=
  ∃ k, 1 <= k <= 15 ∧ wake p = start p + waitPeriodMS * k.

(** What holds of every world the batcher can be in: no loop in flight and
    the batcher idle, or one loop on schedule and the batcher waiting; and
    every emission was made at most [maxWaitMS] after its loop started. *)
Definition coherent (w : World) : Prop :=
  ((loops w = [] ∧ batcher w = new)
   ∨ (∃ p, loops w = [p] ∧ isWaiting (batcher w) = true ∧ on_schedule p))
  ∧ ∀ q, q ∈ batches w → wake q - start q <= maxWaitMS.

(** The loop [p] is in flight or has emitted. *)
Definition tracked (p : Loop) (w : World) : Prop :=
  ∃ q, (q ∈ loops w ∨ q ∈ batches w) ∧ eventId q = eventId p ∧ start q = start p.

End UpdateBatcher.

(** ** What the rest of the class does, and what its passes keep *)

(** [get listShortcode]: [this.shortcode || '']. *)
Definition listShortcode (l : BanList) : string :=
  if truthy (shortcode l) then default "" (shortcode l) else "".

(** A call of [set listShortcode] in flight: the state event it has sent,
    as (type, state key, content), and the two values its [catch] handler
    has captured. *)
Record ShortcodeWrite : Type := mkShortcodeWrite {
  sent : string * string * gmap string string;
  newShortcode : string;
  currentShortcode : option string
}.

(** [set listShortcode]: the new value is set at once and sent to the room. *)
Definition set_listShortcode (l : BanList) (value : string)
  : BanList * ShortcodeWrite :=
  let current := shortcode l in
  let l' := mkBanList (Some value) (state l) in
  (l', mkShortcodeWrite (SHORTCODE_EVENT_TYPE, "", {[ "shortcode" := value ]})
                        value current).

(** The [catch] handler of that call, when the request is rejected: the
    former value is put back if the shortcode is still the one the call has
    set. (A request that resolves changes nothing.) *)
Definition shortcode_rejected (w : ShortcodeWrite) (l : BanList) : BanList :=
  if bool_decide (shortcode l = Some (newShortcode w))
  then mkBanList (currentShortcode w) (state l)
  else l.

(** The event that [updateList] reads the shortcode from, and the shortcode
    it reads. *)
Definition is_shortcode_event (ev : Event) : bool :=
  bool_decide (state_key ev = "") && bool_decide (type ev = SHORTCODE_EVENT_TYPE).

Definition shortcodeOf (ev : Event) : option string :=
  if truthy (default ∅ (content ev) !! "shortcode")
  then default ∅ (content ev) !! "shortcode" else None.

(** The table is interned: an event is stored under the kind of its type and
    under its own state key, which is not empty, and the rule attached to it
    is of that kind. *)
Definition interned (l : BanList) : Prop :=
  ∀ k key ev, getState l k key = Some ev →
    kindOf (type ev) = Some k ∧ state_key ev = key ∧ key ≠ ""
    ∧ ∀ r, unsigned_rule ev = Some r → kind r = k.

(** The event is a rule event of kind [k] that the pass does not skip. *)
Definition rule_event (k : string) (ev : Event) : Prop :=
  kindOf (type ev) = Some k ∧ state_key ev ≠ "".

(** The event is accepted by a list: the list holds nothing for its kind and
    state key, or an event that is not of a more recent type. *)
Definition accepted (l : BanList) (k : string) (ev : Event) : Prop :=
  ∀ prev, getState l k (state_key ev) = Some prev →
          indexOf (aliasTable k) (type ev) <= indexOf (aliasTable k) (type prev).

(** The event is a rule event, of some kind, that the pass does not skip. *)
Definition is_rule_event (ev : Event) : bool :=
  bool_decide (state_key ev ≠ "") && bool_decide (is_Some (kindOf (type ev))).

(** *** A few more events

    An event for [@a] whose content is not a rule, and the rule for [@a]
    as a store answers it that leaves [unsigned] out. *)
Definition ev_invalid_a : Event :=
  mkEvent RULE_USER "rule:@a" "$8" "@mod" (Some {[ "reason" := "oops" ]}) (Some noUnsigned).
Definition ev_bare_add_a : Event :=
  mkEvent RULE_USER "rule:@a" "$1" "@mod" (Some (banContent "@a" "spam")) None.

(** ** The batcher over a run of notifications *)

Module BatcherRuns.
Import UpdateBatcher.

(** The loop [p] goes on in [w]: a loop with its event id and its start
    is in flight or has emitted, with a timer that is not earlier. *)
Definition carried (p : Loop) (w : World) : Prop :=
  ∃ q, (q ∈ loops w ∨ q ∈ batches w)
       ∧ eventId q = eventId p ∧ start q = start p ∧ wake p <= wake q.

(** Every loop of [w], in flight or ended, was started by one of the
    notifications [seen], at the time of that notification, and has
    waited for one timer at least; and there are no more loops than
    notifications. *)
Definition sourced (seen : list (Z * string)) (w : World) : Prop :=
  (∀ q, q ∈ loops w ∨ q ∈ batches w →
        (start q, eventId q) ∈ seen ∧ waitPeriodMS <= wake q - start q)
  ∧ (length (loops w) + length (batches w) <= length seen)%nat.

(** The loops in flight were started at [bound] at the latest. *)
Definition started_by (bound : Z) (w : World) : Prop :=
  ∀ p, p ∈ loops w → start p <= bound.

End BatcherRuns.

(** ** The batcher when timers are late

    [setTimeout(resolve, waitPeriodMS)] resolves [waitPeriodMS] after it is
    called at the earliest, and later when the event loop is busy. Here the
    timer set at time [t] resolves [late t] milliseconds after it is due,
    for a function [late] that is nowhere negative, and [Date.now()] at the
    resumption of [checkBatch] is the time at which its timer has resolved.
    The records, [init], [earliest] and [replace] are those of
    [UpdateBatcher], whose timers are the ones that are never late. *)

Module LateTimers.
Import UpdateBatcher.

(** [checkBatch] from the moment its timer resolves, at [wake p]. *)
Definition checkBatch_resume (late : Z → Z) (b : t) (p : Loop) : t * option Loop :=
  if (wake p - start p <? maxWaitMS)
     && negb (bool_decide (latestEventId b = Some (eventId p)))
  then (b, Some (mkLoop (eventId p) (start p)
                        (wake p + waitPeriodMS + late (wake p))))
  else (reset b, None).

(** [addToBatch] at time [now]. *)
Definition addToBatch (late : Z → Z) (now : Z) (id : string) (w : World) : World :=
  if isWaiting (batcher w) then
    mkWorld (mk (isWaiting (batcher w)) (Some id)) (loops w) (batches w)
  else
    mkWorld (mk true (Some id))
            (loops w ++ [mkLoop id now (now + waitPeriodMS + late now)])
            (batches w).

(** The timer of [p] resolves. *)
Definition fire (late : Z → Z) (p : Loop) (w : World) : World :=
  match checkBatch_resume late (batcher w) p with
  | (b, Some p') => mkWorld b (replace p (Some p') (loops w)) (batches w)
  | (b, None) => mkWorld b (replace p None (loops w)) (batches w ++ [p])
  end.

(** Let the time pass until [now]: the timers that have resolved by then
    resume their loops, in order. *)
Fixpoint advance (late : Z → Z) (fuel : nat) (now : Z) (w : World) : World :=
  match fuel with
  | O => w
  | S fuel' =>
      match earliest (loops w) with
      | Some p => if wake p <=? now then advance late fuel' now (fire late p w) else w
      | None => w
      end
  end.

(** A timer lasts [waitPeriodMS] at least: [resumptions now p] resumptions
    bring the timer of [p] past [now], as they do when no timer is late. *)
Definition advance_to (late : Z → Z) (now : Z) (w : World) : World :=
  advance late (foldr (λ p n, (resumptions now p + n)%nat) O (loops w)) now w.

(** The notifications [(time, event id)], in the order they arrive. *)
Fixpoint run (late : Z → Z) (inputs : list (Z * string)) (w : World) : World :=
  match inputs with
  | [] => w
  | (now, id) :: rest => run late rest (addToBatch late now id (advance_to late now w))
  end.

(** The timers resolve one after the other, with no notification in
    between. *)
Fixpoint drain (late : Z → Z) (fuel : nat) (w : World) : World :=
  match fuel with
  | O => w
  | S fuel' =>
      match earliest (loops w) with
      | Some p => drain late fuel' (fire late p w)
      | None => w
      end
  end.

(** No more notifications: the loops in flight run to their end. A loop
    ends at the first resumption that finds [maxWaitMS] elapsed, which
    [maxWaitMS / waitPeriodMS] timers are enough for. *)
Definition quiesce (late : Z → Z) (w : World) : World :=
  drain late
        (foldr (λ _ n, (Z.to_nat (maxWaitMS `div` waitPeriodMS) + n)%nat) O (loops w))
        w.

(** The timer that [p] waits for, or has ended at, was set at some time [s]
    at which less than [maxWaitMS] had elapsed since the start of the loop,
    and has resolved [late s] after it was due; and when no timer is ever
    late the loop is on the schedule of [UpdateBatcher]. *)
Definition timed (late : Z → Z) (p : Loop) : Prop :=
  (∃ s, start p <= s < start p + maxWaitMS
        ∧ wake p = s + waitPeriodMS + late s)
  ∧ ((∀ t, late t = 0) → on_schedule p).

(** What holds of every world the batcher can be in: no loop in flight and
    the batcher idle, or one loop and the batcher waiting. *)
Definition coherent (late : Z → Z) (w : World) : Prop :=
  ((loops w = [] ∧ batcher w = new)
   ∨ (∃ p, loops w = [p] ∧ isWaiting (batcher w) = true ∧ timed late p))
  ∧ ∀ q, q ∈ batches w → timed late q.


End LateTimers.

(** * Properties *)

(** ** The alias tables *)

Section AliasTables.

Lemma includes_true (l : list string) (x : string) : includes l x = true ↔ x ∈ l.
Proof. unfold includes. apply bool_decide_eq_true. Qed.

Lemma includes_false (l : list string) (x : string) : includes l x = false ↔ x ∉ l.
Proof. unfold includes. apply bool_decide_eq_false. Qed.

Lemma kindOf_Some (t k : string) :
  kindOf t = Some k →
  k ∈ [RULE_USER; RULE_ROOM; RULE_SERVER] ∧ t ∈ aliasTable k.
Proof.
  unfold kindOf. intros H.
  destruct (includes USER_RULE_TYPES t) eqn:Hu.
  { apply includes_true in Hu. injection H as <-. split; [rewrite !elem_of_cons; auto | exact Hu]. }
  destruct (includes ROOM_RULE_TYPES t) eqn:Hr.
  { apply includes_true in Hr. injection H as <-. split; [rewrite !elem_of_cons; auto | exact Hr]. }
  destruct (includes SERVER_RULE_TYPES t) eqn:Hs; [| discriminate].
  apply includes_true in Hs. injection H as <-. split; [rewrite !elem_of_cons; auto | exact Hs].
Qed.

Lemma aliasTable_kindOf (t k : string) :
  k ∈ [RULE_USER; RULE_ROOM; RULE_SERVER] → t ∈ aliasTable k → kindOf t = Some k.
Proof.
  intros Hk Ht.
  repeat (apply elem_of_cons in Hk as [-> | Hk]); [| | | by apply elem_of_nil in Hk];
    repeat (apply elem_of_cons in Ht as [-> | Ht]); try (by apply elem_of_nil in Ht);
    reflexivity.
Qed.

Lemma kindOf_all (t k : string) :
  kindOf t = Some k → includes ALL_RULE_TYPES t = true ∧ t ≠ SHORTCODE_EVENT_TYPE.
Proof.
  intros H. apply kindOf_Some in H as [Hk Ht].
  repeat (apply elem_of_cons in Hk as [-> | Hk]); [| | | by apply elem_of_nil in Hk];
    repeat (apply elem_of_cons in Ht as [-> | Ht]); try (by apply elem_of_nil in Ht);
    (split; [reflexivity | discriminate]).
Qed.

Lemma obsolete_index (k : string) (ev prev : Event) :
  k ∈ [RULE_USER; RULE_ROOM; RULE_SERVER] →
  obsolete k ev prev
  = (indexOf (aliasTable k) (type ev) >? indexOf (aliasTable k) (type prev)).
Proof.
  intros Hk. unfold obsolete, aliasTable.
  repeat (apply elem_of_cons in Hk as [-> | Hk]); [| | | by apply elem_of_nil in Hk];
    repeat case_bool_decide; try discriminate; simpl;
    repeat match goal with |- context [if ?b then true else _] => destruct b end;
    reflexivity.
Qed.

Lemma not_obsolete (k : string) (ev prev : Event) :
  k ∈ [RULE_USER; RULE_ROOM; RULE_SERVER] →
  indexOf (aliasTable k) (type ev) <= indexOf (aliasTable k) (type prev) →
  obsolete k ev prev = false.
Proof.
  intros Hk Hidx. rewrite obsolete_index by done.
  rewrite Z.gtb_ltb. apply Z.ltb_ge. lia.
Qed.

End AliasTables.

(** ** The turn of the loop *)

Section Reconciliation.

Lemma iteration_rule_event (l : BanList) (ev : Event) (k : string) :
  kindOf (type ev) = Some k → state_key ev ≠ "" →
  iteration l ev = reconcile l k ev.
Proof.
  intros Hk Hkey. unfold iteration.
  destruct (kindOf_all _ _ Hk) as [Hall Hsc].
  rewrite (bool_decide_eq_false_2 _ Hkey). simpl.
  rewrite Hall, Hk. reflexivity.
Qed.

Lemma iteration_empty_key (l : BanList) (ev : Event) (k : string) :
  kindOf (type ev) = Some k → state_key ev = "" →
  iteration l ev = Normal l [].
Proof.
  intros Hk Hkey. unfold iteration.
  destruct (kindOf_all _ _ Hk) as [Hall Hsc].
  rewrite (bool_decide_eq_true_2 _ Hkey), (bool_decide_eq_false_2 _ Hsc).
  reflexivity.
Qed.

(** C1. The authority of the types. During a pass, when the table already
    holds an event for the kind and the state key of the incoming event, and
    the type of the incoming event comes later in the alias table of that
    kind than the type of the stored event, the incoming event is discarded:
    the turn of the loop leaves the list as it is, stored event included,
    and pushes no change, and the pass goes on as if the event had not been
    there. *)
Theorem obsolete_type_is_discarded (l : BanList) (ev prev : Event) (k : string) :
  kindOf (type ev) = Some k →
  getState l k (state_key ev) = Some prev →
  indexOf (aliasTable k) (type ev) > indexOf (aliasTable k) (type prev) →
  iteration l ev = Normal l []
  ∧ ∀ changes rest, for_of l changes (ev :: rest) = for_of l changes rest.
Proof.
  intros Hk Hprev Hidx.
  assert (iteration l ev = Normal l []) as Hit.
  { destruct (decide (state_key ev = "")) as [Hkey | Hkey].
    - by eapply iteration_empty_key.
    - rewrite (iteration_rule_event _ _ _ Hk Hkey). unfold reconcile.
      rewrite Hprev, obsolete_index by (by apply kindOf_Some in Hk as [? _]).
      by rewrite (proj2 (Z.gtb_gt _ _) Hidx). }
  split; [exact Hit |].
  intros changes rest. simpl. rewrite Hit. by rewrite app_nil_r.
Qed.

(** C1 at work: the list holds the rule for [@a] under the current type;
    the event of the oldest type for the same state key is discarded. *)
Lemma obsolete_type_is_discarded_legacy :
  iteration list_a ev_legacy_a = Normal list_a [].
Proof.
  apply (obsolete_type_is_discarded list_a ev_legacy_a (kept RULE_USER ev_add_a) RULE_USER).
  - reflexivity.
  - vm_compute. reflexivity.
  - vm_compute. reflexivity.
Defined.


Lemma parse_rule_unparsed (l : BanList) (k : string) (ev : Event)
    (previous : option Event) (ct : option ChangeType) :
  parses ev = false → parse_rule l k ev previous ct = Normal l [].
Proof.
  unfold parses, parse_rule. destruct (content ev) as [c |]; [| done].
  intros H. apply andb_false_iff in H as [-> | ->]; [done |].
  by rewrite orb_true_r.
Qed.

Lemma parse_rule_changes (l l' : BanList) (k : string) (ev : Event)
    (previous : option Event) (ct : option ChangeType)
    (changes : list ListRuleChange) (c : ListRuleChange) :
  parse_rule l k ev previous ct = Normal l' changes → c ∈ changes →
  ct = Some (changeType c) ∧ parses ev = true.
Proof.
  destruct (parses ev) eqn:Hp.
  - unfold parse_rule. unfold parses in Hp.
    destruct (content ev) as [cn |]; [| done].
    apply andb_true_iff in Hp as [-> ->]. simpl.
    destruct (unsigned ev) as [u |]; [| done].
    destruct ct as [t |]; intros [= <- <-] Hc.
    + apply list_elem_of_singleton in Hc as ->. done.
    + by apply elem_of_nil in Hc.
  - rewrite parse_rule_unparsed by done. intros [= <- <-] Hc.
    by apply elem_of_nil in Hc.
Qed.

Lemma classify_removed (prev ev : Event) :
  classify (Some prev) ev = Some (Some Removed) →
  (event_id prev = event_id ev ∧ redacted ev = true)
  ∨ (event_id prev ≠ event_id ev ∧ content ev = Some ∅).
Proof.
  unfold classify, redacted. case_bool_decide as Hid.
  - destruct (unsigned_redacted_because ev) eqn:Hr; [| done].
    intros _. left. split; [done |]. by apply bool_decide_eq_true_2.
  - destruct (content ev) as [c |]; [| done].
    case_bool_decide as Hc; [| done]. subst. intros _. by right.
Qed.

Lemma removed_is_unparsed (prev ev : Event) :
  stripped ev → classify (Some prev) ev = Some (Some Removed) → parses ev = false.
Proof.
  intros Hs [[_ Hr] | [_ Hc]]%classify_removed; [by apply Hs |].
  unfold parses. by rewrite Hc.
Qed.

(** The change that records a removal, as the loop body builds it. *)
Lemma reconcile_removed (l : BanList) (k : string) (ev prev : Event)
    (r : ListRule) (u : Unsigned) :
  getState l k (state_key ev) = Some prev →
  obsolete k ev prev = false →
  classify (Some prev) ev = Some (Some Removed) →
  unsigned_rule prev = Some r →
  unsigned ev = Some u →
  reconcile l k ev
  = Normal (setState l k (state_key ev) ev)
      [mkChange Removed ev
         (match redacted_because u with
          | Some red => redaction_sender red
          | None => sender ev
          end) r (Some prev)].
Proof.
  intros Hprev Hobs Hcl Hr Hu. unfold reconcile.
  by rewrite Hprev, Hobs, Hcl, Hr, Hu.
Qed.

Lemma reconcile_removed_only (l l' : BanList) (k : string) (ev : Event)
    (changes : list ListRuleChange) (c : ListRuleChange) :
  stripped ev →
  reconcile l k ev = Normal l' changes → c ∈ changes → changeType c = Removed →
  ∃ prev r, getState l k (state_key ev) = Some prev
            ∧ unsigned_rule prev = Some r
            ∧ change_rule c = r ∧ previousState c = Some prev.
Proof.
  intros Hs. unfold reconcile.
  destruct (getState l k (state_key ev)) as [prev |] eqn:Hprev.
  - destruct (obsolete k ev prev).
    { intros [= <- <-] Hc. by apply elem_of_nil in Hc. }
    destruct (classify (Some prev) ev) as [ct |] eqn:Hcl; [| done].
    destruct ct as [[ | | ] |].
    + intros H Hc Hct. apply (parse_rule_changes _ _ _ _ _ _ _ _ H) in Hc as [? _].
      congruence.
    + destruct (unsigned_rule prev) as [r |] eqn:Hr.
      * destruct (unsigned ev) as [u |]; [| done].
        intros [= <- <-] Hc _. apply list_elem_of_singleton in Hc as ->.
        by exists prev, r.
      * rewrite parse_rule_unparsed by by eapply removed_is_unparsed.
        intros [= <- <-] Hc. by apply elem_of_nil in Hc.
    + intros H Hc Hct. apply (parse_rule_changes _ _ _ _ _ _ _ _ H) in Hc as [? _].
      congruence.
    + intros H Hc Hct. apply (parse_rule_changes _ _ _ _ _ _ _ _ H) in Hc as [? _].
      congruence.
  - simpl. intros H Hc Hct.
    apply (parse_rule_changes _ _ _ _ _ _ _ _ H) in Hc as [? _]. congruence.
Qed.

Lemma iteration_changes_rule_event (l l' : BanList) (ev : Event)
    (changes : list ListRuleChange) (c : ListRuleChange) :
  iteration l ev = Normal l' changes → c ∈ changes →
  ∃ k, kindOf (type ev) = Some k ∧ state_key ev ≠ ""
       ∧ reconcile l k ev = Normal l' changes.
Proof.
  unfold iteration. intros H Hc.
  destruct (bool_decide (state_key ev = "") && _).
  { injection H as <- <-. by apply elem_of_nil in Hc. }
  case_bool_decide as Hkey; simpl in H.
  { injection H as <- <-. by apply elem_of_nil in Hc. }
  destruct (negb _).
  { injection H as <- <-. by apply elem_of_nil in Hc. }
  destruct (kindOf (type ev)) as [k |].
  - by exists k.
  - injection H as <- <-. by apply elem_of_nil in Hc.
Qed.


Lemma getState_setState (l : BanList) (k key : string) (ev : Event) :
  getState (setState l k key ev) k key = Some ev.
Proof.
  unfold getState, setState.
  destruct (state l !! k) as [tt |]; simpl; rewrite lookup_insert_eq.
  - apply lookup_insert_eq.
  - apply lookup_singleton_eq.
Qed.

Lemma getState_setState_ne (l : BanList) (k key k' key' : string) (ev : Event) :
  (k, key) ≠ (k', key') →
  getState (setState l k key ev) k' key' = getState l k' key'.
Proof.
  intros Hne. unfold getState, setState.
  destruct (state l !! k) as [tt |] eqn:Htt; simpl.
  - destruct (decide (k = k')) as [<- | Hk].
    + rewrite lookup_insert_eq, Htt. apply lookup_insert_ne. congruence.
    + by rewrite lookup_insert_ne.
  - destruct (decide (k = k')) as [<- | Hk].
    + rewrite lookup_insert_eq, Htt. apply lookup_singleton_ne. congruence.
    + by rewrite lookup_insert_ne.
Qed.

(** An event with a content that does not parse, met by a table that holds
    no rule for its kind and state key: nothing is pushed, and the table
    still holds no rule there. *)
Lemma reconcile_unparsed_unruled (l : BanList) (k : string) (ev : Event) :
  getState l k (state_key ev) ≫= unsigned_rule = None →
  parses ev = false → is_Some (content ev) →
  ∃ l', reconcile l k ev = Normal l' []
        ∧ (fresh ev → getState l' k (state_key ev) ≫= unsigned_rule = None).
Proof.
  intros Hr Hp [c Hc]. unfold reconcile.
  destruct (getState l k (state_key ev)) as [prev |] eqn:Hprev; simpl in Hr.
  - destruct (obsolete k ev prev).
    { exists l. by rewrite Hprev. }
    assert (∃ ct, classify (Some prev) ev = Some ct) as [ct ->].
    { unfold classify. rewrite Hc.
      repeat case_bool_decide; destruct (unsigned_redacted_because ev); by eexists. }
    rewrite Hr. exists (setState l k (state_key ev) ev).
    rewrite getState_setState.
    destruct ct as [[ | | ] |]; by rewrite parse_rule_unparsed by done.
  - simpl. exists (setState l k (state_key ev) ev).
    by rewrite parse_rule_unparsed, getState_setState by done.
Qed.

(** C2. Take an event as the store answers it: a redaction has stripped its
    content, so that an event that carries redaction info has no entity and
    recommendation left ([stripped]; the comment at line 302 and the
    documentation of [ListRuleChange.event] say as much). A [Removed] change
    is pushed for it only when the event stored before it for its kind and
    state key has a rule attached, and that rule is the rule of the change.
    When the event is classified [Removed] and the stored event has no rule
    attached, the turn of the loop completes and pushes nothing. In
    particular, when the table holds no rule for a state key, an event whose
    content has no entity or no recommendation, followed by another such
    event on the same state key, makes a pass that pushes nothing. *)
Theorem removed_needs_former_rule (l : BanList) (ev : Event) :
  stripped ev →
  (∀ l' changes c,
      iteration l ev = Normal l' changes → c ∈ changes → changeType c = Removed →
      ∃ k prev r, kindOf (type ev) = Some k
                  ∧ getState l k (state_key ev) = Some prev
                  ∧ unsigned_rule prev = Some r
                  ∧ change_rule c = r ∧ previousState c = Some prev)
  ∧ (∀ k prev,
      kindOf (type ev) = Some k →
      getState l k (state_key ev) = Some prev →
      classify (Some prev) ev = Some (Some Removed) →
      unsigned_rule prev = None →
      ∃ l', iteration l ev = Normal l' [])
  ∧ (∀ k e0,
      kindOf (type e0) = Some k → kindOf (type ev) = Some k →
      state_key e0 = state_key ev →
      getState l k (state_key e0) ≫= unsigned_rule = None → fresh e0 →
      is_Some (content e0) → parses e0 = false →
      is_Some (content ev) → parses ev = false →
      ∃ l', updateList l [e0; ev] = Normal l' []).
Proof.
  intros Hs. split; [| split].
  - intros l' changes c Hit Hc Hct.
    destruct (iteration_changes_rule_event _ _ _ _ _ Hit Hc) as (k & Hk & Hkey & Hrec).
    destruct (reconcile_removed_only _ _ _ _ _ _ Hs Hrec Hc Hct) as (prev & r & ?).
    by exists k, prev, r.
  - intros k prev Hk Hprev Hcl Hr.
    destruct (decide (state_key ev = "")) as [Hkey | Hkey].
    { exists l. by eapply iteration_empty_key. }
    rewrite (iteration_rule_event _ _ _ Hk Hkey). unfold reconcile.
    rewrite Hprev. destruct (obsolete k ev prev); [by eexists |].
    rewrite Hcl, Hr. rewrite parse_rule_unparsed by by eapply removed_is_unparsed.
    by eexists.
  - intros k e0 Hk0 Hk Hkeys Hnone Hfresh Hc0 Hp0 Hc Hp.
    unfold updateList. simpl.
    destruct (decide (state_key e0 = "")) as [Hkey | Hkey].
    { rewrite (iteration_empty_key _ _ _ Hk0 Hkey). simpl.
      rewrite (iteration_empty_key _ _ _ Hk) by congruence. by eexists. }
    rewrite (iteration_rule_event _ _ _ Hk0 Hkey).
    destruct (reconcile_unparsed_unruled l k e0) as (l0 & -> & Hr0); try done.
    simpl. rewrite (iteration_rule_event _ _ _ Hk) by congruence.
    specialize (Hr0 Hfresh). rewrite Hkeys in Hr0.
    destruct (reconcile_unparsed_unruled l0 k ev) as (l' & -> & _); try done.
    by eexists.
Qed.

(** C2 at work: the redacted event with no content, seen again by a list
    that holds it with no rule attached. *)
Lemma removed_needs_former_rule_redacted :
  ∃ l', iteration list_redacted_a ev_hard_delete_a = Normal l' [].
Proof.
  assert (stripped ev_hard_delete_a) as Hs by (intros _; reflexivity).
  apply (proj1 (proj2 (removed_needs_former_rule list_redacted_a ev_hard_delete_a Hs))
           RULE_USER ev_hard_delete_a).
  - reflexivity.
  - vm_compute. reflexivity.
  - vm_compute. reflexivity.
  - reflexivity.
Defined.

(** The code relies on the store for this: nothing in it checks that a
    redacted event has lost its content. Were a redacted event to come with
    its entity and recommendation, the test at line 298 would fail for a
    stored event with no rule and the parsing at lines 305-319 would push a
    [Removed] change with the rule parsed from the event itself. *)
Lemma removed_without_former_rule :
  (getState list_replayed RULE_USER "rule:@a" ≫= unsigned_rule = None
   ∧ changeTypes (updateList list_replayed [ev_redacted]) = Some [Removed])
  ∧ (getState list_redacted_a RULE_USER "rule:@a" ≫= unsigned_rule = None
     ∧ classify (getState list_redacted_a RULE_USER "rule:@a") ev_redacted
       = Some (Some Removed)
     ∧ changeTypes (updateList list_redacted_a [ev_redacted]) = Some [Removed]).
Proof.
  repeat split; vm_compute; reflexivity.
Qed.

(** C4. The hard delete. When the incoming event has the id of the event
    stored for its kind and state key, is not of an older type than it (the
    same event has the same type), carries redaction info, and the stored
    event has a rule attached, the turn of the loop stores the event and
    pushes exactly one change: [Removed], with the rule of the stored event,
    the stored event as [previousState], and for sender the sender of the
    redaction, not the [sender] of the event. *)
Theorem hard_delete_names_the_redactor (l : BanList) (ev prev : Event)
    (k : string) (r : ListRule) (red : Redaction) :
  kindOf (type ev) = Some k → state_key ev ≠ "" →
  getState l k (state_key ev) = Some prev →
  indexOf (aliasTable k) (type ev) <= indexOf (aliasTable k) (type prev) →
  event_id prev = event_id ev →
  unsigned_redacted_because ev = Some red →
  unsigned_rule prev = Some r →
  iteration l ev
  = Normal (setState l k (state_key ev) ev)
      [mkChange Removed ev (redaction_sender red) r (Some prev)].
Proof.
  intros Hk Hkey Hprev Hidx Hid Hred Hr.
  rewrite (iteration_rule_event _ _ _ Hk Hkey).
  unfold unsigned_redacted_because in Hred.
  destruct (unsigned ev) as [u |] eqn:Hu; [| done].
  rewrite (reconcile_removed l k ev prev r u); try done.
  - by rewrite Hred.
  - apply not_obsolete; [by apply kindOf_Some in Hk as [? _] | done].
  - unfold classify, unsigned_redacted_because.
    by rewrite (bool_decide_eq_true_2 _ Hid), Hu, Hred.
Qed.

(** C4 at work: [@admin] redacts the rule that [@mod] sent. *)
Lemma hard_delete_names_the_redactor_admin :
  iteration list_a ev_hard_delete_a
  = Normal (setState list_a RULE_USER "rule:@a" ev_hard_delete_a)
      [mkChange Removed ev_hard_delete_a "@admin" (ruleOf RULE_USER (banContent "@a" "spam"))
         (Some (kept RULE_USER ev_add_a))].
Proof.
  apply (hard_delete_names_the_redactor list_a ev_hard_delete_a (kept RULE_USER ev_add_a)
           RULE_USER (ruleOf RULE_USER (banContent "@a" "spam")) (mkRedaction "@admin")).
  - reflexivity.
  - discriminate.
  - vm_compute. reflexivity.
  - vm_compute. discriminate.
  - reflexivity.
  - reflexivity.
  - vm_compute. reflexivity.
Defined.

(** C5, as amended. The soft delete. When the event stored for the kind and
    state key has a rule attached, and the incoming event is not of an older
    type than it, has its [unsigned], another id and an empty content, the
    turn of the loop stores the event and pushes exactly one change:
    [Removed], with the rule of the stored event and the stored event as
    [previousState]. *)
Theorem soft_delete_carries_former_rule (l : BanList) (ev prev : Event)
    (k : string) (r : ListRule) (u : Unsigned) :
  kindOf (type ev) = Some k → state_key ev ≠ "" →
  getState l k (state_key ev) = Some prev →
  indexOf (aliasTable k) (type ev) <= indexOf (aliasTable k) (type prev) →
  event_id prev ≠ event_id ev →
  content ev = Some ∅ →
  unsigned_rule prev = Some r →
  unsigned ev = Some u →
  iteration l ev
  = Normal (setState l k (state_key ev) ev)
      [mkChange Removed ev
         (match redacted_because u with
          | Some red => redaction_sender red
          | None => sender ev
          end) r (Some prev)].
Proof.
  intros Hk Hkey Hprev Hidx Hid Hc Hr Hu.
  rewrite (iteration_rule_event _ _ _ Hk Hkey).
  apply reconcile_removed; try done.
  - apply not_obsolete; [by apply kindOf_Some in Hk as [? _] | done].
  - unfold classify. by rewrite (bool_decide_eq_false_2 _ Hid), Hc.
Qed.

(** C5 at work: [@admin] overwrites the rule for [@a] with an empty
    content. *)
Lemma soft_delete_carries_former_rule_admin :
  iteration list_a ev_soft_delete_a
  = Normal (setState list_a RULE_USER "rule:@a" ev_soft_delete_a)
      [mkChange Removed ev_soft_delete_a "@admin"
         (ruleOf RULE_USER (banContent "@a" "spam")) (Some (kept RULE_USER ev_add_a))].
Proof.
  apply (soft_delete_carries_former_rule list_a ev_soft_delete_a (kept RULE_USER ev_add_a)
           RULE_USER (ruleOf RULE_USER (banContent "@a" "spam")) noUnsigned).
  - reflexivity.
  - discriminate.
  - vm_compute. reflexivity.
  - vm_compute. discriminate.
  - discriminate.
  - reflexivity.
  - vm_compute. reflexivity.
  - reflexivity.
Defined.

(** C5 as stated fails for an event of an older type: the list holds the
    rule for [@a] under the current type, the incoming event has another id
    and an empty content but the type [m.room.rule.user]; it is discarded by
    the test on obsolete types, and nothing is pushed. *)
Lemma soft_delete_of_older_type_is_discarded :
  getState list_a RULE_USER "rule:@a" = Some (kept RULE_USER ev_add_a)
  ∧ unsigned_rule (kept RULE_USER ev_add_a) = Some (ruleOf RULE_USER (banContent "@a" "spam"))
  ∧ kindOf (type ev_legacy_soft_delete) = Some RULE_USER
  ∧ state_key ev_legacy_soft_delete = "rule:@a"
  ∧ event_id (kept RULE_USER ev_add_a) ≠ event_id ev_legacy_soft_delete
  ∧ content ev_legacy_soft_delete = Some ∅
  ∧ iteration list_a ev_legacy_soft_delete = Normal list_a [].
Proof.
  repeat split; try discriminate; vm_compute; reflexivity.
Qed.

(** The soft delete by an event that has no [unsigned]: the change is
    classified [Removed] and is to be pushed, but the sender is read from
    [event.unsigned['redacted_because']] with no [?.], which raises once
    the event is stored. *)
Lemma soft_delete_bare_raises (l : BanList) (ev prev : Event)
    (k : string) (r : ListRule) :
  kindOf (type ev) = Some k → state_key ev ≠ "" →
  getState l k (state_key ev) = Some prev →
  indexOf (aliasTable k) (type ev) <= indexOf (aliasTable k) (type prev) →
  event_id prev ≠ event_id ev →
  content ev = Some ∅ →
  unsigned_rule prev = Some r →
  unsigned ev = None →
  iteration l ev = TypeError (setState l k (state_key ev) ev).
Proof.
  intros Hk Hkey Hprev Hidx Hid Hc Hr Hu.
  rewrite (iteration_rule_event _ _ _ Hk Hkey). unfold reconcile.
  rewrite Hprev, not_obsolete by (done || by apply kindOf_Some in Hk as [? _]).
  unfold classify. by rewrite (bool_decide_eq_false_2 _ Hid), Hc, Hr, Hu.
Qed.

(** The list holds the rule for [@a]; the event that overwrites it has no
    [unsigned]. *)
Lemma soft_delete_bare_raises_admin :
  iteration list_a ev_soft_delete_bare
  = TypeError (setState list_a RULE_USER "rule:@a" ev_soft_delete_bare).
Proof.
  apply (soft_delete_bare_raises list_a ev_soft_delete_bare (kept RULE_USER ev_add_a)
           RULE_USER (ruleOf RULE_USER (banContent "@a" "spam"))).
  - reflexivity.
  - discriminate.
  - vm_compute. reflexivity.
  - vm_compute. discriminate.
  - discriminate.
  - reflexivity.
  - vm_compute. reflexivity.
  - reflexivity.
Defined.

(** The stream of the specification: a rule for [@a], its modification, its
    soft delete, a rule for [#b] and a legacy event for [@a]. *)
Example five_record_stream :
  changeTypes (updateList newBanList
                 [ev_add_a; ev_modify_a; ev_soft_delete_a; ev_add_b; ev_legacy_a])
  = Some [Added; Modified; Removed; Added]
  ∧ userRules (listOf (updateList newBanList
                 [ev_add_a; ev_modify_a; ev_soft_delete_a; ev_add_b; ev_legacy_a])) = []
  ∧ roomRules (listOf (updateList newBanList
                 [ev_add_a; ev_modify_a; ev_soft_delete_a; ev_add_b; ev_legacy_a]))
    = [mkListRule "#b" "ban" "abuse" RULE_ROOM].
Proof. repeat split; vm_compute; reflexivity. Qed.

End Reconciliation.

(** ** Two passes over the same state *)

Section Idempotence.

Lemma setState_id (l : BanList) (k key : string) (s : Event) :
  getState l k key = Some s → setState l k key s = l.
Proof.
  unfold getState, setState. destruct l as [sc st]. simpl.
  destruct (st !! k) as [tt |] eqn:Htt; [| done].
  intros Hs. f_equal. rewrite (insert_id tt) by done. by apply insert_id.
Qed.

Lemma setState_setState (l : BanList) (k key : string) (a b : Event) :
  setState (setState l k key a) k key b = setState l k key b.
Proof.
  unfold setState. destruct l as [sc st]. simpl.
  destruct (st !! k) as [tt |] eqn:Htt; simpl; rewrite lookup_insert_eq;
    f_equal; rewrite insert_insert_eq; f_equal.
  - apply insert_insert_eq.
  - unfold singletonM, map_singleton. apply insert_insert_eq.
Qed.












Lemma iteration_cases (l : BanList) (ev : Event) :
  (∃ sc, iteration l ev = Normal (mkBanList sc (state l)) [])
  ∨ (∃ k, kindOf (type ev) = Some k ∧ state_key ev ≠ ""
          ∧ iteration l ev = reconcile l k ev).
Proof.
  unfold iteration.
  destruct (bool_decide (state_key ev = "") && _); [left; by eexists |].
  case_bool_decide as Hkey; simpl.
  { left. exists (shortcode l). by destruct l. }
  destruct (negb _).
  { left. exists (shortcode l). by destruct l. }
  destruct (kindOf (type ev)) as [k |] eqn:Hk.
  - right. by exists k.
  - left. exists (shortcode l). by destruct l.
Qed.













(** The hypothesis [stripped] is used: were the store to answer a redacted
    event with its entity and recommendation, the first pass would attach
    its rule and push [Added], and the second one, finding the same id with
    redaction info, would push [Removed]. *)
Lemma redacted_rule_is_replayed :
  NoDup (record_key <$> [ev_redacted]) ∧ fresh ev_redacted
  ∧ changeTypes (updateList newBanList [ev_redacted]) = Some [Added]
  ∧ changeTypes (updateList (listOf (updateList newBanList [ev_redacted])) [ev_redacted])
    = Some [Removed].
Proof.
  split; [apply NoDup_singleton |]. split; [reflexivity |].
  split; vm_compute; reflexivity.
Qed.

End Idempotence.

(** ** The accessors *)

Section Accessors.

Lemma active_rule_Some (k : string) (ev : Event) (r : ListRule) :
  active_rule k ev = Some r ↔
  unsigned_rule ev = Some r ∧ kind r = k ∧ recommendation r = RECOMMENDATION_BAN.
Proof.
  unfold active_rule. destruct (unsigned_rule ev) as [r' |].
  - destruct (decide (kind r' = k)) as [Hk | Hk];
      destruct (decide (recommendation r' = RECOMMENDATION_BAN)) as [Hb | Hb];
      rewrite ?(bool_decide_eq_true_2 _ Hk), ?(bool_decide_eq_false_2 _ Hk),
              ?(bool_decide_eq_true_2 _ Hb), ?(bool_decide_eq_false_2 _ Hb); simpl;
      (split; [intros [= <-] | intros ([= <-] & ? & ?)]); done.
  - split; [done | by intros [? _]].
Qed.

Lemma elem_of_rulesOfKind (l : BanList) (k : string) (r : ListRule) :
  r ∈ rulesOfKind l k ↔
  ∃ key ev, getState l k key = Some ev ∧ unsigned_rule ev = Some r
            ∧ kind r = k ∧ recommendation r = RECOMMENDATION_BAN.
Proof.
  unfold rulesOfKind, getState.
  destruct (state l !! k) as [m |].
  2: { split; [by intros ?%elem_of_nil | by intros (? & ? & ? & _)]. }
  rewrite list_elem_of_omap. split.
  - intros (ev & Hev & Hr). apply list_elem_of_fmap in Hev as ([key ev'] & -> & Hin).
    apply elem_of_map_to_list in Hin. apply active_rule_Some in Hr.
    by exists key, ev'.
  - intros (key & ev & Hin & Hr). exists ev. split.
    + apply list_elem_of_fmap. exists (key, ev). split; [done |].
      by apply elem_of_map_to_list.
    + by apply active_rule_Some.
Qed.

(** C8. The accessors surface bans only. Every rule that [rulesOfKind]
    answers for a kind, and so every rule of [serverRules], [userRules],
    [roomRules] and [allRules], recommends [RECOMMENDATION_BAN]; a rule with
    another recommendation is in none of these lists, whatever the table
    holds. *)
Theorem accessors_surface_bans_only (l : BanList) (r : ListRule) :
  (∀ k, r ∈ rulesOfKind l k → recommendation r = RECOMMENDATION_BAN)
  ∧ (r ∈ serverRules l ∨ r ∈ userRules l ∨ r ∈ roomRules l ∨ r ∈ allRules l →
     recommendation r = RECOMMENDATION_BAN)
  ∧ (recommendation r ≠ RECOMMENDATION_BAN →
     ∀ k, r ∉ rulesOfKind l k)
  ∧ (recommendation r ≠ RECOMMENDATION_BAN → r ∉ allRules l).
Proof.
  assert (∀ k, r ∈ rulesOfKind l k → recommendation r = RECOMMENDATION_BAN) as Hk.
  { intros k (key & ev & _ & _ & _ & Hb)%elem_of_rulesOfKind. exact Hb. }
  assert (r ∈ allRules l → recommendation r = RECOMMENDATION_BAN) as Hall.
  { unfold allRules, serverRules, userRules, roomRules.
    rewrite !elem_of_app. intros [? | [? | ?]]; by eapply Hk. }
  split; [exact Hk | split; [| split]].
  - unfold serverRules, userRules, roomRules.
    intros [? | [? | [? | ?]]]; [by eapply Hk .. | by apply Hall].
  - intros Hne k Hin. by apply Hne, (Hk k).
  - intros Hne Hin. by apply Hne, Hall.
Qed.

(** C8 at work: the table holds a ban for [@a] and a valid rule for [@c]
    that is not a ban. *)
Lemma accessors_surface_bans_only_advice :
  ruleOf RULE_USER (banContent "@a" "spam") ∈ userRules list_advice
  ∧ getState list_advice RULE_USER "rule:@c" ≫= unsigned_rule
    = Some (mkListRule "@c" "org.example.warn" "<no reason>" RULE_USER)
  ∧ mkListRule "@c" "org.example.warn" "<no reason>" RULE_USER ∉ allRules list_advice.
Proof.
  split; [vm_compute; apply list_elem_of_here |].
  split; [vm_compute; reflexivity |].
  apply (accessors_surface_bans_only list_advice
           (mkListRule "@c" "org.example.warn" "<no reason>" RULE_USER)).
  discriminate.
Defined.

End Accessors.

(** ** [unbanEntity] *)

Section Unban.
Context (client : MatrixClient) (stateKey : string).

Lemma Promise_all_rejected {E A : Type} (ps : list (E + A)) (e : E) :
  Promise_all ps = inl e → inl e ∈ ps.
Proof.
  induction ps as [| [e' | a] ps IH]; simpl; [done | |].
  - intros [= ->]. apply list_elem_of_here.
  - destruct (Promise_all ps); [| done].
    intros [= ->]. apply list_elem_of_further. by apply IH.
Qed.

Lemma Promise_all_rejects {E A : Type} (ps : list (E + A)) (e : E) :
  inl e ∈ ps → ∃ e', Promise_all ps = inl e'.
Proof.
  induction ps as [| [e' | a] ps IH]; simpl.
  - by intros ?%elem_of_nil.
  - by eexists.
  - intros [[=] | Hin]%elem_of_cons. destruct (IH Hin) as [e' ->]. by eexists.
Qed.

Lemma Promise_all_resolved {E A : Type} (ps : list (E + A)) :
  (∀ e, inl e ∉ ps) → ∃ l, Promise_all ps = inr l ∧ ps = inr <$> l.
Proof.
  induction ps as [| [e' | a] ps IH]; simpl; intros Hno.
  - by exists [].
  - destruct (Hno e'). apply list_elem_of_here.
  - destruct IH as (l & -> & ->).
    { intros e He. apply (Hno e). by apply list_elem_of_further. }
    by exists (a :: l).
Qed.

Lemma lookupType_rejected (t : string) (e : RequestError) :
  lookupType client stateKey t = inl e ↔ lookup_failure client stateKey t = Some e.
Proof.
  unfold lookupType, lookup_failure.
  destruct (getRoomStateEvent client t stateKey) as [e' |]; [| done].
  destruct (statusCode e' =? 404); split; intros [=]; by subst.
Qed.

Lemma lookups_resolved (types : list string) :
  (∀ t, t ∈ types → lookup_failure client stateKey t = None) →
  (∀ t, t ∈ types → t ≠ "") →
  ∃ found, Promise_all (lookupType client stateKey <$> types) = inr found
           ∧ omap (λ e, if truthy e then e else None) found
             = filter (λ t, holds client stateKey t = true) types.
Proof.
  induction types as [| t types IH]; intros Hok Hne.
  - by exists [].
  - destruct IH as (found & Hall & Hfound).
    { intros t' Ht'. apply Hok. by apply list_elem_of_further. }
    { intros t' Ht'. apply Hne. by apply list_elem_of_further. }
    pose proof (Hok t (list_elem_of_here _ _)) as Ht.
    pose proof (Hne t (list_elem_of_here _ _)) as Htne.
    rewrite fmap_cons. cbn [Promise_all].
    unfold lookupType at 1. unfold lookup_failure in Ht.
    destruct (getRoomStateEvent client t stateKey) as [e | c] eqn:Hget.
    + rewrite filter_cons_False by (unfold holds; by rewrite Hget).
      destruct (statusCode e =? 404); [| done].
      rewrite Hall. eexists. split; [done |]. by rewrite <- Hfound.
    + rewrite filter_cons_True by (unfold holds; by rewrite Hget).
      rewrite Hall. eexists. split; [done |]. rewrite <- Hfound.
      cbn [omap list_omap truthy]. by rewrite (bool_decide_eq_true_2 _ Htne).
Qed.

Lemma sends_rejected (types : list string) (e : RequestError) :
  Promise_all ((λ t, sendStateEvent client t stateKey ∅) <$> types) = inl e →
  ∃ t, t ∈ types ∧ write_failure client stateKey t = Some e.
Proof.
  intros H%Promise_all_rejected. apply list_elem_of_fmap in H as (t & Ht & Hin).
  exists t. split; [done |]. unfold write_failure. by rewrite <- Ht.
Qed.

Lemma sends_resolved (types : list string) :
  (∀ t, t ∈ types → write_failure client stateKey t = None) →
  ∃ l, Promise_all ((λ t, sendStateEvent client t stateKey ∅) <$> types) = inr l.
Proof.
  intros Hok. destruct (Promise_all_resolved
    ((λ t, sendStateEvent client t stateKey ∅) <$> types)) as (l & -> & _); [| by eexists].
  intros e (t & Ht & Hin)%list_elem_of_fmap.
  specialize (Hok t Hin). unfold write_failure in Hok. by rewrite <- Ht in Hok.
Qed.

(** [unbanTypes] on types that are not the empty string. *)
Lemma unbanTypes_spec (types : list string) :
  (∀ t, t ∈ types → t ≠ "") →
  let u := unbanTypes client stateKey types in
  let found := filter (λ t, holds client stateKey t = true) types in
  lookups u = (λ t, (t, stateKey)) <$> types
  ∧ ((∃ t e, t ∈ types ∧ lookup_failure client stateKey t = Some e) →
     writes u = []
     ∧ ∃ t e, t ∈ types ∧ lookup_failure client stateKey t = Some e
              ∧ settled u = Rejected e)
  ∧ ((∀ t, t ∈ types → lookup_failure client stateKey t = None) →
     writes u = clearing stateKey <$> found
     ∧ (found = [] → settled u = Resolved false)
     ∧ (found ≠ [] →
        (∀ t, t ∈ found → write_failure client stateKey t = None) →
        settled u = Resolved true)
     ∧ (found ≠ [] →
        (∃ t e, t ∈ found ∧ write_failure client stateKey t = Some e) →
        ∃ t e, t ∈ found ∧ write_failure client stateKey t = Some e
               ∧ settled u = Rejected e)).
Proof.
  intros Hne u found. split; [| split].
  - unfold u, unbanTypes.
    destruct (Promise_all _); [done |].
    case_bool_decide; [done |]. by destruct (Promise_all _).
  - intros (t & e & Hin & Hfail). unfold u, unbanTypes.
    destruct (Promise_all_rejects (lookupType client stateKey <$> types) e) as [e' He'].
    { apply list_elem_of_fmap. exists t. split; [| done].
      symmetry. by apply lookupType_rejected. }
    rewrite He'. split; [done |].
    apply Promise_all_rejected, list_elem_of_fmap in He' as (t' & Ht' & Hin').
    exists t', e'. split; [done |]. split; [| done].
    by apply lookupType_rejected.
  - intros Hok. destruct (lookups_resolved types Hok Hne) as (res & Hres & Hfound).
    fold found in Hfound. unfold u, unbanTypes. rewrite Hres, Hfound.
    case_bool_decide as Hlen.
    + apply nil_length_inv in Hlen. rewrite Hlen. simpl.
      split; [done |]. split; [done |]. split; intros Hnil; by destruct Hnil.
    + assert (found ≠ []) as Hnil by (intros Hf; apply Hlen; by rewrite Hf).
      split; [destruct (Promise_all (_ <$> found)); reflexivity |].
      split; [done |]. split.
      * intros _ Hw. by destruct (sends_resolved found Hw) as [l ->].
      * intros _ (t & e & Hin & Hfail).
        destruct (Promise_all_rejects
          ((λ t, sendStateEvent client t stateKey ∅) <$> found) e) as [e' He'].
        { apply list_elem_of_fmap. exists t. split; [| done].
          unfold write_failure in Hfail.
          by destruct (sendStateEvent client t stateKey ∅) as [e0 |]; simplify_eq. }
        rewrite He'. apply sends_rejected in He' as (t' & Hin' & Hf').
        by exists t', e'.
Qed.

End Unban.

Section UnbanEntity.

Lemma typesToCheck_kind (knd : string) :
  knd ∈ [RULE_USER; RULE_ROOM; RULE_SERVER] → typesToCheck knd = aliasTable knd.
Proof.
  intros Hk.
  repeat (apply elem_of_cons in Hk as [-> | Hk]); [| | | by apply elem_of_nil in Hk];
    reflexivity.
Qed.

Lemma typesToCheck_other (ruleType : string) :
  ruleType ∉ [RULE_USER; RULE_ROOM; RULE_SERVER] → typesToCheck ruleType = [ruleType].
Proof.
  intros Hk. unfold typesToCheck.
  repeat case_bool_decide; try reflexivity; subst; destruct Hk;
    rewrite !elem_of_cons; auto.
Qed.

Lemma aliasTable_nonempty_types (knd t : string) : t ∈ aliasTable knd → t ≠ "".
Proof.
  unfold aliasTable. repeat case_bool_decide; intros Ht;
    repeat (apply elem_of_cons in Ht as [-> | Ht]); try (by apply elem_of_nil in Ht);
    discriminate.
Qed.

(** C9. [unbanEntity] for one of the three kinds looks every alias type of
    the kind up under [rule:<entity>]. A lookup rejected with anything but a
    404 rejects the call, and no write is issued. Otherwise (a 404 counts as
    "no event") a clearing write with empty content is issued for exactly
    the alias types that hold an event; a rejected write rejects the call;
    and when no write is rejected the call answers [true] if and only if
    some alias type holds an event, [false] if and only if none does. *)
Theorem unbanEntity_clears_every_alias (client : MatrixClient) (knd entity : string) :
  knd ∈ [RULE_USER; RULE_ROOM; RULE_SERVER] →
  let stateKey := "rule:" +:+ entity in
  let u := unbanEntity client knd entity in
  let found := filter (λ t, holds client stateKey t = true) (aliasTable knd) in
  lookups u = (λ t, (t, stateKey)) <$> aliasTable knd
  ∧ ((∃ t e, t ∈ aliasTable knd ∧ lookup_failure client stateKey t = Some e) →
     writes u = []
     ∧ ∃ t e, t ∈ aliasTable knd ∧ lookup_failure client stateKey t = Some e
              ∧ settled u = Rejected e)
  ∧ ((∀ t, t ∈ aliasTable knd → lookup_failure client stateKey t = None) →
     writes u = clearing stateKey <$> found
     ∧ ((∃ t e, t ∈ found ∧ write_failure client stateKey t = Some e) →
        ∃ t e, t ∈ found ∧ write_failure client stateKey t = Some e
               ∧ settled u = Rejected e)
     ∧ ((∀ t, t ∈ found → write_failure client stateKey t = None) →
        (settled u = Resolved true
         ↔ ∃ t, t ∈ aliasTable knd ∧ holds client stateKey t = true)
        ∧ (settled u = Resolved false
           ↔ ∀ t, t ∈ aliasTable knd → holds client stateKey t = false))).
Proof.
  intros Hk stateKey u found.
  destruct (unbanTypes_spec client stateKey (aliasTable knd)
              (aliasTable_nonempty_types knd)) as (Hl & Hfail & Hok).
  assert (∀ t, t ∈ found ↔ holds client stateKey t = true ∧ t ∈ aliasTable knd)
    as Hfound
    by (intros t; exact (list_elem_of_filter
          (λ t, holds client stateKey t = true) (aliasTable knd) t)).
  fold found in Hok. clearbody found.
  unfold u, unbanEntity. rewrite (typesToCheck_kind _ Hk). fold stateKey.
  split; [exact Hl | split; [exact Hfail |]].
  intros Hno. destruct (Hok Hno) as (Hw & Hnone & Htrue & Hrej).
  split; [exact Hw | split].
  - intros (t & e & Hin & Hf). apply Hrej; [| by eauto].
    intros Hnil. rewrite Hnil in Hin. by apply elem_of_nil in Hin.
  - intros Hwok.
    assert (found = [] ↔ ∀ t, t ∈ aliasTable knd → holds client stateKey t = false)
      as Hempty.
    { split.
      - intros Hnil t Hin. destruct (holds client stateKey t) eqn:Hh; [| done].
        assert (t ∈ found) as Hf by (by apply Hfound).
        rewrite Hnil in Hf. by apply elem_of_nil in Hf.
      - intros Hall. destruct found as [| t found']; [done |].
        destruct (proj1 (Hfound t) (list_elem_of_here _ _)) as [Hh Hin].
        rewrite (Hall t Hin) in Hh. discriminate. }
    destruct (decide (found = [])) as [Hnil | Hnil].
    + rewrite (Hnone Hnil). split.
      * split; [done |]. intros (t & Hin & Hh).
        rewrite (proj1 Hempty Hnil t Hin) in Hh. discriminate.
      * split; [| done]. intros _. by apply Hempty.
    + rewrite (Htrue Hnil Hwok). split.
      * split; [| done]. intros _.
        destruct found as [| t found']; [done |].
        destruct (proj1 (Hfound t) (list_elem_of_here _ _)) as [Hh Hin].
        by exists t.
      * split; [done |]. intros Hall. by apply Hempty in Hall.
Qed.

(** C9 at work: the store holds the rule under two of the three user
    types. *)
Lemma unbanEntity_clears_every_alias_two :
  writes (unbanEntity client_two RULE_USER "@a")
  = [clearing "rule:@a" RULE_USER; clearing "rule:@a" "org.matrix.mjolnir.rule.user"]
  ∧ settled (unbanEntity client_two RULE_USER "@a") = Resolved true.
Proof.
  assert (RULE_USER ∈ [RULE_USER; RULE_ROOM; RULE_SERVER]) as Hk by apply list_elem_of_here.
  destruct (unbanEntity_clears_every_alias client_two RULE_USER "@a" Hk)
    as (_ & _ & Hok).
  destruct Hok as (Hw & _ & Hiff).
  { intros t Ht. repeat (apply elem_of_cons in Ht as [-> | Ht]); try reflexivity.
    by apply elem_of_nil in Ht. }
  split; [exact Hw |].
  apply Hiff.
  - intros t _. reflexivity.
  - exists RULE_USER. split; [apply list_elem_of_here | reflexivity].
Defined.

(** C10, as amended. Called with a type that is none of the three kinds
    and is not the empty string, [unbanEntity] does not look at any alias
    table: it makes the one lookup for that type and, when the event is
    there, issues the one clearing write for that type and answers [true]
    (or is rejected as the write is); on a 404 it writes nothing and answers
    [false]; another rejection of the lookup rejects the call. *)
Theorem unbanEntity_other_type (client : MatrixClient) (ruleType entity : string) :
  ruleType ∉ [RULE_USER; RULE_ROOM; RULE_SERVER] → ruleType ≠ "" →
  let stateKey := "rule:" +:+ entity in
  let u := unbanEntity client ruleType entity in
  lookups u = [(ruleType, stateKey)]
  ∧ match getRoomStateEvent client ruleType stateKey with
    | inr _ =>
        writes u = [clearing stateKey ruleType]
        ∧ settled u = match sendStateEvent client ruleType stateKey ∅ with
                      | inr _ => Resolved true
                      | inl e => Rejected e
                      end
    | inl e =>
        writes u = []
        ∧ settled u = if statusCode e =? 404 then Resolved false else Rejected e
    end.
Proof.
  intros Hk Hne stateKey u. unfold u, unbanEntity.
  rewrite (typesToCheck_other _ Hk). fold stateKey.
  unfold unbanTypes, lookupType. simpl.
  destruct (getRoomStateEvent client ruleType stateKey) as [e | c]; simpl.
  - by destruct (statusCode e =? 404).
  - rewrite (bool_decide_eq_true_2 _ Hne). simpl.
    by destruct (sendStateEvent client ruleType stateKey ∅).
Qed.

(** C10 at work: the oldest user type, which the store holds. *)
Lemma unbanEntity_other_type_legacy :
  unbanEntity client_two "org.matrix.mjolnir.rule.user" "@a"
  = mkUnban [("org.matrix.mjolnir.rule.user", "rule:@a")]
            [clearing "rule:@a" "org.matrix.mjolnir.rule.user"] (Resolved true).
Proof.
  destruct (unbanEntity_other_type client_two "org.matrix.mjolnir.rule.user" "@a")
    as (Hl & Hw & Hs).
  - rewrite !elem_of_cons. intros [H | [H | [H | H]]]; try discriminate H.
    by apply elem_of_nil in H.
  - discriminate.
  - reflexivity.
Defined.

(** C10 as stated fails for the empty string: the lookup is made and finds
    an event, but [filter(e => e)] drops the empty type with the nulls, so
    that no write is issued and the call answers [false]. *)
Lemma unbanEntity_empty_type_writes_nothing :
  typesToCheck "" = [""]
  ∧ holds client_any "rule:@a" "" = true
  ∧ unbanEntity client_any "" "@a" = mkUnban [("", "rule:@a")] [] (Resolved false).
Proof. repeat split. Qed.

(** Nothing to clear; a lookup that fails. *)
Example unbanEntity_nothing_held :
  unbanEntity client_empty RULE_ROOM "#b"
  = mkUnban [(RULE_ROOM, "rule:#b"); ("m.room.rule.room", "rule:#b");
             ("org.matrix.mjolnir.rule.room", "rule:#b")] [] (Resolved false).
Proof. reflexivity. Qed.

Example unbanEntity_lookup_fails :
  unbanEntity client_failing RULE_USER "@a"
  = mkUnban [(RULE_USER, "rule:@a"); ("m.room.rule.user", "rule:@a");
             ("org.matrix.mjolnir.rule.user", "rule:@a")] [] (Rejected serverError).
Proof. reflexivity. Qed.

End UnbanEntity.

(** ** The batcher *)

Module BatcherFacts.
Import UpdateBatcher.

Lemma coherent_init : coherent init.
Proof. split; [by left | by intros q ?%elem_of_nil]. Qed.

Lemma replace_single (p : Loop) (o : option Loop) :
  replace p o [p] = match o with Some p' => [p'] | None => [] end.
Proof. simpl. by rewrite decide_True. Qed.

Lemma fire_single (w : World) (p : Loop) :
  loops w = [p] →
  fire p w
  = if (wake p - start p <? maxWaitMS)
       && negb (bool_decide (latestEventId (batcher w) = Some (eventId p)))
    then mkWorld (batcher w) [mkLoop (eventId p) (start p) (wake p + waitPeriodMS)]
                 (batches w)
    else mkWorld new [] (batches w ++ [p]).
Proof.
  intros Hl. unfold fire, checkBatch_resume. rewrite Hl.
  destruct (_ && _); by rewrite replace_single.
Qed.

Lemma coherent_fire (w : World) (p : Loop) :
  coherent w → loops w = [p] → coherent (fire p w).
Proof.
  intros [Hl Hb] Hp. rewrite (fire_single _ _ Hp).
  destruct Hl as [[Hnil _] | (p' & Hp' & Hwait & k & Hk & Hwake)]; [congruence |].
  assert (p' = p) as -> by congruence.
  destruct (wake p - start p <? maxWaitMS) eqn:Hlt; simpl.
  - destruct (negb _); split; simpl.
    + right. eexists. split; [done |]. split; [done |].
      apply Z.ltb_lt in Hlt. unfold maxWaitMS, waitPeriodMS in *.
      exists (k + 1). cbn [wake start]. unfold waitPeriodMS. lia.
    + done.
    + by left.
    + intros q [Hq | ->%list_elem_of_singleton]%elem_of_app; [by apply Hb |].
      unfold maxWaitMS, waitPeriodMS in *. lia.
  - split; simpl; [by left |].
    intros q [Hq | ->%list_elem_of_singleton]%elem_of_app; [by apply Hb |].
    unfold maxWaitMS, waitPeriodMS in *. lia.
Qed.

Lemma coherent_advance (fuel : nat) (now : Z) (w : World) :
  coherent w → coherent (advance fuel now w).
Proof.
  revert w. induction fuel as [| fuel IH]; intros w Hw; [done |]. simpl.
  destruct (earliest (loops w)) as [p |] eqn:He; [| done].
  destruct (wake p <=? now); [| done].
  apply IH, coherent_fire; [done |].
  destruct Hw as [[[Hnil _] | (p' & Hp' & _)] _].
  - rewrite Hnil in He. discriminate.
  - rewrite Hp' in He. simpl in He. congruence.
Qed.

Lemma coherent_addToBatch (now : Z) (id : string) (w : World) :
  coherent w → coherent (addToBatch now id w).
Proof.
  intros [Hl Hb]. unfold addToBatch.
  destruct Hl as [[Hnil Hnew] | (p & Hp & Hwait & Hs)].
  - rewrite Hnew, Hnil. simpl. split; [| done]. right. eexists.
    split; [done |]. split; [done |]. exists 1. cbn [wake start].
    unfold waitPeriodMS. lia.
  - rewrite Hwait. split; [| done]. right. by exists p.
Qed.

Lemma coherent_run (inputs : list (Z * string)) (w : World) :
  coherent w → coherent (run inputs w).
Proof.
  revert w. induction inputs as [| [now id] inputs IH]; intros w Hw; [done |].
  simpl. by apply IH, coherent_addToBatch, coherent_advance.
Qed.

Lemma tracked_fire (p q : Loop) (w : World) :
  loops w = [q] → tracked p w → tracked p (fire q w).
Proof.
  intros Hq (r & Hr & Hid & Hst). rewrite (fire_single _ _ Hq).
  rewrite Hq in Hr.
  destruct (_ && _); simpl.
  - destruct Hr as [->%list_elem_of_singleton | Hr].
    + exists (mkLoop (eventId q) (start q) (wake q + waitPeriodMS)).
      split; [left; apply list_elem_of_here | done].
    + exists r. split; [by right | done].
  - exists r. split; [| done]. right. cbn [batches].
    rewrite elem_of_app, list_elem_of_singleton.
    destruct Hr as [->%list_elem_of_singleton | Hr]; auto.
Qed.

Lemma tracked_advance (p : Loop) (fuel : nat) (now : Z) (w : World) :
  coherent w → tracked p w → tracked p (advance fuel now w).
Proof.
  revert w. induction fuel as [| fuel IH]; intros w Hw Hp; [done |]. simpl.
  destruct (earliest (loops w)) as [q |] eqn:He; [| done].
  destruct (wake q <=? now); [| done].
  assert (loops w = [q]) as Hq.
  { destruct Hw as [[[Hnil _] | (p' & Hp' & _)] _].
    - rewrite Hnil in He. discriminate.
    - rewrite Hp' in He. simpl in He. congruence. }
  apply IH; [by apply coherent_fire | by apply tracked_fire].
Qed.

Lemma tracked_addToBatch (p : Loop) (now : Z) (id : string) (w : World) :
  tracked p w → tracked p (addToBatch now id w).
Proof.
  intros (r & Hr & Hid & Hst). exists r. split; [| done].
  unfold addToBatch. destruct (isWaiting (batcher w)); simpl; [done |].
  rewrite elem_of_app. destruct Hr; auto.
Qed.

Lemma tracked_run (p : Loop) (inputs : list (Z * string)) (w : World) :
  coherent w → tracked p w → tracked p (run inputs w).
Proof.
  revert w. induction inputs as [| [now id] inputs IH]; intros w Hw Hp; [done |].
  simpl. apply IH.
  - by apply coherent_addToBatch, coherent_advance.
  - by apply tracked_addToBatch, tracked_advance.
Qed.

(** With the time at or past [start + maxWaitMS], and a resumption left
    for each timer the loop can still set, the loop ends. *)
Lemma advance_ends (fuel : nat) (now : Z) (w : World) (p : Loop) (k : Z) :
  loops w = [p] → 1 <= k <= 15 → wake p = start p + waitPeriodMS * k →
  start p + maxWaitMS <= now → 15 - k < Z.of_nat fuel →
  loops (advance fuel now w) = [] ∧ batcher (advance fuel now w) = new.
Proof.
  revert w p k. induction fuel as [| fuel IH]; intros w p k Hp Hk Hwake Hnow Hfuel.
  { lia. }
  simpl. rewrite Hp. simpl.
  rewrite (proj2 (Z.leb_le _ _)) by (unfold maxWaitMS, waitPeriodMS in *; lia).
  rewrite (fire_single _ _ Hp).
  destruct (wake p - start p <? maxWaitMS) eqn:Hlt; simpl.
  - apply Z.ltb_lt in Hlt. destruct (negb _).
    + apply (IH _ (mkLoop (eventId p) (start p) (wake p + waitPeriodMS)) (k + 1));
        cbn [loops wake start]; unfold maxWaitMS, waitPeriodMS in *; try done; lia.
    + by destruct fuel.
  - by destruct fuel.
Qed.

Lemma quiesce_ends (w : World) :
  coherent w → loops (quiesce w) = [] ∧ batcher (quiesce w) = new.
Proof.
  intros [[[Hnil Hnew] | (p & Hp & _ & k & Hk & Hwake)] _].
  - unfold quiesce, advance_to. rewrite Hnil. done.
  - unfold quiesce, advance_to, horizon, resumptions. rewrite Hp. simpl.
    apply (advance_ends _ _ _ p k); try done;
      unfold maxWaitMS, waitPeriodMS in *; try lia.
    rewrite Nat.add_0_r, Z2Nat.id.
    + assert (15 - k < (start p + 3200 - wake p) `div` 200 + 1); [| ].
      { apply Z.lt_le_trans with (15 - k + 1); [lia |].
        apply Z.add_le_mono_r. apply Z.div_le_lower_bound; lia. }
      assert ((start p + 3200 - wake p) `div` 200
              <= (Z.max (Z.max (wake p) (start p + 3000 + 200)) 0 - wake p) `div` 200).
      { apply Z.div_le_mono; lia. }
      lia.
    + assert (0 <= (Z.max (Z.max (wake p) (start p + 3000 + 200)) 0 - wake p) `div` 200).
      { apply Z.div_pos; lia. }
      lia.
Qed.

(** [advance_to] runs every timer that is due. *)
Lemma advance_settles (fuel : nat) (now : Z) (w : World) (p : Loop) :
  coherent w → loops w = [p] → (now - wake p) `div` waitPeriodMS + 1 <= Z.of_nat fuel →
  ∀ q, q ∈ loops (advance fuel now w) → now < wake q.
Proof.
  revert w p. induction fuel as [| fuel IH]; intros w p Hw Hp Hfuel q.
  { simpl. rewrite Hp. intros ->%list_elem_of_singleton.
    unfold waitPeriodMS in *.
    destruct (decide (now < wake p)); [done |].
    assert (0 <= (now - wake p) `div` 200) by (apply Z.div_pos; lia). lia. }
  simpl. rewrite Hp. simpl.
  destruct (wake p <=? now) eqn:Hdue.
  - apply Z.leb_le in Hdue.
    pose proof (coherent_fire _ _ Hw Hp) as Hw'.
    rewrite (fire_single _ _ Hp) in *.
    destruct (_ && _).
    + eapply IH; [done | done |]. simpl.
      unfold waitPeriodMS in *.
      replace (now - (wake p + 200)) with ((now - wake p) + (-1) * 200) by lia.
      rewrite Z.div_add by lia. lia.
    + destruct fuel; simpl; by intros ?%elem_of_nil.
  - apply Z.leb_gt in Hdue. rewrite Hp. by intros ->%list_elem_of_singleton.
Qed.

Lemma advance_to_settles (now : Z) (w : World) :
  coherent w → ∀ q, q ∈ loops (advance_to now w) → now < wake q.
Proof.
  intros Hw. pose proof Hw as [[[Hnil Hnew] | (p & Hp & _)] _].
  - unfold advance_to. rewrite Hnil. simpl. rewrite Hnil. by intros q ?%elem_of_nil.
  - unfold advance_to. rewrite Hp. simpl. apply (advance_settles _ _ _ p); [done | done |].
    unfold resumptions. rewrite Nat.add_0_r. lia.
Qed.

Lemma advance_idle (fuel : nat) (now : Z) (w : World) :
  loops w = [] → advance fuel now w = w.
Proof. intros Hnil. destruct fuel; simpl; by rewrite ?Hnil. Qed.

Lemma advance_not_due (fuel : nat) (now : Z) (w : World) (p : Loop) :
  loops w = [p] → now < wake p → advance fuel now w = w.
Proof.
  intros Hp Hlt. destruct fuel; simpl; [done |]. rewrite Hp. simpl.
  by rewrite (proj2 (Z.leb_gt _ _)) by lia.
Qed.

(** A loop whose marker has been overwritten, left alone: it sets its 15
    timers and emits at [start + maxWaitMS]. *)
Lemma advance_unmatched (fuel : nat) (now : Z) (w : World) (p : Loop) (k : Z) :
  loops w = [p] → latestEventId (batcher w) ≠ Some (eventId p) →
  1 <= k <= 15 → wake p = start p + waitPeriodMS * k →
  start p + maxWaitMS <= now → 15 - k < Z.of_nat fuel →
  advance fuel now w
  = mkWorld new [] (batches w ++ [mkLoop (eventId p) (start p) (start p + maxWaitMS)]).
Proof.
  revert w p k. induction fuel as [| fuel IH]; intros w p k Hp Hid Hk Hwake Hnow Hfuel.
  { lia. }
  simpl. rewrite Hp. simpl.
  rewrite (proj2 (Z.leb_le _ _)) by (unfold maxWaitMS, waitPeriodMS in *; lia).
  rewrite (fire_single _ _ Hp), (bool_decide_eq_false_2 _ Hid). simpl.
  rewrite andb_true_r.
  destruct (wake p - start p <? maxWaitMS) eqn:Hlt.
  - apply Z.ltb_lt in Hlt.
    rewrite (IH _ (mkLoop (eventId p) (start p) (wake p + waitPeriodMS)) (k + 1));
      cbn [loops wake start batcher]; unfold maxWaitMS, waitPeriodMS in *;
      try done; lia.
  - apply Z.ltb_ge in Hlt. rewrite advance_idle by done.
    do 3 f_equal. destruct p as [id st wk]. simpl in *.
    f_equal. unfold maxWaitMS, waitPeriodMS in *. lia.
Qed.

(** C6. The loop compares the tracked marker with the marker that started
    it, not with the marker seen at the previous timer. Two notifications
    with different markers less than [waitPeriodMS] apart, then silence: the
    one loop sets all its timers and the one ['BanList.batch'] is emitted
    [maxWaitMS] after the first notification, where the quiescence the
    specification describes asks for an emission about [waitPeriodMS] after
    the second one. *)
Theorem second_marker_delays_batch (t1 t2 : Z) (m1 m2 : string) :
  m1 ≠ m2 → t1 <= t2 < t1 + waitPeriodMS →
  quiesce (run [(t1, m1); (t2, m2)] init)
  = mkWorld new [] [mkLoop m1 t1 (t1 + maxWaitMS)].
Proof.
  intros Hm Ht. simpl. unfold advance_to at 2. simpl.
  unfold addToBatch at 2. simpl.
  unfold advance_to.
  rewrite (advance_not_due _ _ _ (mkLoop m1 t1 (t1 + waitPeriodMS))) by (simpl; lia || done).
  unfold addToBatch. simpl.
  unfold quiesce, advance_to, horizon, resumptions. cbn [loops foldr wake start].
  rewrite (advance_unmatched _ _ _ (mkLoop m1 t1 (t1 + waitPeriodMS)) 1);
    cbn [loops wake start batcher latestEventId eventId batches];
    unfold maxWaitMS, waitPeriodMS in *; try done; try lia.
  - congruence.
  - rewrite Nat.add_0_r.
    assert (15 <= (Z.max (Z.max (t1 + 200) (t1 + 3000 + 200)) 0 - (t1 + 200)) `div` 200).
    { apply Z.div_le_lower_bound; lia. }
    lia.
Qed.

(** C6 at work: markers at 0 and 100 ms, emission at 3000 ms. *)
Lemma second_marker_delays_batch_at_100 :
  quiesce (run [(0, "m1"); (100, "m2")] init) = mkWorld new [] [mkLoop "m1" 0 3000].
Proof.
  apply (second_marker_delays_batch 0 100 "m1" "m2").
  - discriminate.
  - unfold waitPeriodMS. lia.
Defined.

(** With timers that are never late. In every world the batcher can reach,
    whatever the notifications: at most one loop is in flight, and one is
    exactly when the batcher is waiting; a notification while waiting only overwrites the tracked
    marker (the loop, its start and its timer are untouched, no loop is
    added); every emission was made at most [maxWaitMS] after its loop
    started; and every loop in flight ends, whatever notifications follow:
    once they stop no loop is left, the batcher is back to its initial
    state, and the loop has emitted at most [maxWaitMS] after it started. *)
Theorem wait_loop_ends_within_maxWait (inputs more : list (Z * string)) :
  let w := run inputs init in
  (length (loops w) <= 1)%nat
  ∧ (isWaiting (batcher w) = true ↔ loops w ≠ [])
  ∧ (∀ now id, isWaiting (batcher w) = true →
       addToBatch now id w = mkWorld (mk true (Some id)) (loops w) (batches w))
  ∧ (∀ q, q ∈ batches w → wake q - start q <= maxWaitMS)
  ∧ (∀ p, p ∈ loops w →
       let w' := quiesce (run more w) in
       loops w' = [] ∧ batcher w' = new
       ∧ ∃ q, q ∈ batches w' ∧ eventId q = eventId p ∧ start q = start p
              ∧ wake q - start q <= maxWaitMS).
Proof.
  intros w.
  assert (coherent w) as Hw by apply coherent_run, coherent_init.
  pose proof Hw as [Hl Hb].
  split; [| split; [| split; [| split]]].
  - destruct Hl as [[-> _] | (p & -> & _)]; simpl; lia.
  - destruct Hl as [[-> ->] | (p & -> & -> & _)]; simpl; split; done.
  - intros now id Hwait. unfold addToBatch. by rewrite Hwait.
  - exact Hb.
  - intros p Hp w'.
    assert (coherent (run more w)) as Hmore by by apply coherent_run.
    destruct (quiesce_ends _ Hmore) as [Hnil Hnew].
    split; [exact Hnil | split; [exact Hnew |]].
    assert (tracked p w') as (q & Hq & Hid & Hst).
    { apply tracked_advance; [done |]. apply tracked_run; [done |].
      exists p. auto. }
    fold w' in Hnil. rewrite Hnil in Hq.
    destruct Hq as [?%elem_of_nil | Hq]; [done |].
    exists q. split; [done |]. split; [done |]. split; [done |].
    assert (coherent w') as [_ Hb'] by by apply coherent_advance.
    by apply Hb'.
Qed.

(** The loop started at 0 under notifications every [waitPeriodMS], with
    timers that are never late. *)
Lemma wait_loop_ends_within_maxWait_busy :
  ∃ q, q ∈ batches (quiesce (run [(100, "m2"); (300, "m3"); (500, "m4")]
                               (run [(0, "m1")] init)))
       ∧ eventId q = "m1" ∧ start q = 0 ∧ wake q - start q <= maxWaitMS.
Proof.
  destruct (wait_loop_ends_within_maxWait [(0, "m1")]
              [(100, "m2"); (300, "m3"); (500, "m4")]) as (_ & _ & _ & _ & H).
  destruct (H (mkLoop "m1" 0 200)) as (_ & _ & q & Hq).
  - vm_compute. apply list_elem_of_here.
  - exists q. exact Hq.
Defined.

End BatcherFacts.

(** ** The batcher when timers are late *)

Module LateTimerFacts.
Import UpdateBatcher LateTimers.


Lemma late_fire_single (late : Z → Z) (w : World) (p : Loop) :
  loops w = [p] →
  fire late p w
  = if (wake p - start p <? maxWaitMS)
       && negb (bool_decide (latestEventId (batcher w) = Some (eventId p)))
    then mkWorld (batcher w)
           [mkLoop (eventId p) (start p) (wake p + waitPeriodMS + late (wake p))]
           (batches w)
    else mkWorld new [] (batches w ++ [p]).
Proof.
  intros Hl. unfold fire, checkBatch_resume. rewrite Hl.
  destruct (_ && _); simpl; by rewrite decide_True.
Qed.











(** *** A loop goes on until it emits *)





(** *** Every loop ends *)

Lemma late_drain_idle (late : Z → Z) (fuel : nat) (w : World) :
  loops w = [] → drain late fuel w = w.
Proof. intros Hnil. destruct fuel; simpl; by rewrite ?Hnil. Qed.



(** [advance_to] runs every timer that has resolved. *)
Lemma late_advance_settles (late : Z → Z) (fuel : nat) (now : Z) (w : World) (p : Loop) :
  (∀ t, 0 <= late t) → loops w = [p] →
  (now - wake p) `div` waitPeriodMS + 1 <= Z.of_nat fuel →
  ∀ q, q ∈ loops (advance late fuel now w) → now < wake q.
Proof.
  intros Hlate. revert w p. induction fuel as [| fuel IH]; intros w p Hp Hfuel q.
  { simpl. rewrite Hp. intros ->%list_elem_of_singleton.
    unfold waitPeriodMS in *.
    destruct (decide (now < wake p)); [done |].
    assert (0 <= (now - wake p) `div` 200) by (apply Z.div_pos; lia). lia. }
  simpl. rewrite Hp. simpl.
  destruct (wake p <=? now) eqn:Hdue.
  - apply Z.leb_le in Hdue. rewrite (late_fire_single _ _ _ Hp).
    destruct (_ && _).
    + eapply IH; [done |]. cbn [wake]. specialize (Hlate (wake p)).
      unfold waitPeriodMS in *.
      assert ((now - (wake p + 200 + late (wake p))) `div` 200
              <= ((now - wake p) + (-1) * 200) `div` 200) as Hle
        by (apply Z.div_le_mono; lia).
      rewrite Z.div_add in Hle by lia. lia.
    + destruct fuel; simpl; by intros ?%elem_of_nil.
  - apply Z.leb_gt in Hdue. rewrite Hp. by intros ->%list_elem_of_singleton.
Qed.

Lemma late_advance_to_settles (late : Z → Z) (now : Z) (w : World) :
  (∀ t, 0 <= late t) → coherent late w →
  ∀ q, q ∈ loops (advance_to late now w) → now < wake q.
Proof.
  intros Hlate [[[Hnil Hnew] | (p & Hp & _)] _].
  - unfold advance_to. rewrite Hnil. simpl. rewrite Hnil. by intros q ?%elem_of_nil.
  - unfold advance_to. rewrite Hp. simpl. apply (late_advance_settles _ _ _ _ p); [done | done |].
    unfold resumptions. rewrite Nat.add_0_r. lia.
Qed.

(** With no timer ever late, the notifications are handled as by
    [UpdateBatcher]. *)
Lemma late_run_exact (late : Z → Z) (inputs : list (Z * string)) (w : World) :
  (∀ t, late t = 0) → run late inputs w = UpdateBatcher.run inputs w.
Proof.
  intros H0.
  assert (∀ p w, fire late p w = UpdateBatcher.fire p w) as Hfire.
  { intros p w0. unfold fire, UpdateBatcher.fire, checkBatch_resume,
      UpdateBatcher.checkBatch_resume. by rewrite H0, Z.add_0_r. }
  assert (∀ fuel now w, advance late fuel now w = UpdateBatcher.advance fuel now w) as Hadv.
  { induction fuel as [| fuel IH]; intros now w0; [done |]. simpl.
    destruct (earliest (loops w0)); [| done]. by rewrite Hfire, IH. }
  revert w. induction inputs as [| [now id] inputs IH]; intros w; [done |].
  simpl. rewrite <- IH. f_equal. unfold addToBatch, UpdateBatcher.addToBatch,
    advance_to, UpdateBatcher.advance_to. by rewrite Hadv, H0, Z.add_0_r.
Qed.




End LateTimerFacts.

(** ** What a pass keeps of the table *)

Section PassEffects.

(** What one turn of the loop does to the list, whether it completes or
    raises: it leaves the table alone, or it stores the event, with or
    without its rule, under its kind and state key, over an event that is
    not of a more recent type. *)
Lemma iteration_effect (l : BanList) (ev : Event) :
  state (listOf (iteration l ev)) = state l
  ∨ ∃ k s, rule_event k ev ∧ accepted l k ev
           ∧ listOf (iteration l ev) = setState l k (state_key ev) s
           ∧ (s = ev ∨ ∃ u c, unsigned ev = Some u ∧ content ev = Some c
                              ∧ parses ev = true ∧ s = attach_rule ev u (ruleOf k c)).
Proof.
  destruct (iteration_cases l ev) as [[sc ->] | (k & Hk & Hkey & ->)]; [by left |].
  pose proof (kindOf_Some _ _ Hk) as [Hkin _].
  unfold reconcile. cbv zeta.
  destruct (match getState l k (state_key ev) with
            | Some prev => obsolete k ev prev | None => false end) eqn:Hobs.
  { left. reflexivity. }
  right. exists k.
  assert (accepted l k ev) as Hacc.
  { intros prev Hprev. rewrite Hprev, obsolete_index in Hobs by done.
    rewrite Z.gtb_ltb in Hobs. apply Z.ltb_ge in Hobs. lia. }
  assert (∀ previous ct,
    ∃ s, listOf (parse_rule (setState l k (state_key ev) ev) k ev previous ct)
         = setState l k (state_key ev) s
         ∧ (s = ev ∨ ∃ u c, unsigned ev = Some u ∧ content ev = Some c
                            ∧ parses ev = true ∧ s = attach_rule ev u (ruleOf k c)))
    as Hparse.
  { intros previous ct. unfold parse_rule.
    destruct (content ev) as [c |] eqn:Hc; [| exists ev; by split; [| left]].
    destruct (negb (truthy (c !! "entity")) || negb (truthy (c !! "recommendation")))
      eqn:Hp; [exists ev; by split; [| left] |].
    destruct (unsigned ev) as [u |] eqn:Hu; [| exists ev; by split; [| left]].
    exists (attach_rule ev u (ruleOf k c)). split.
    - destruct ct; simpl; apply setState_setState.
    - right. exists u, c. repeat split; try done.
      unfold parses. rewrite Hc.
      apply orb_false_iff in Hp as [H1 H2].
      apply negb_false_iff in H1, H2. by rewrite H1, H2. }
  assert (∀ res : Completion,
    (∃ s, listOf res = setState l k (state_key ev) s
          ∧ (s = ev ∨ ∃ u c, unsigned ev = Some u ∧ content ev = Some c
                             ∧ parses ev = true ∧ s = attach_rule ev u (ruleOf k c))) →
    ∃ s, rule_event k ev ∧ accepted l k ev
         ∧ listOf res = setState l k (state_key ev) s
         ∧ (s = ev ∨ ∃ u c, unsigned ev = Some u ∧ content ev = Some c
                            ∧ parses ev = true ∧ s = attach_rule ev u (ruleOf k c)))
    as Hwrap.
  { intros res (s & Hs & Hshape). by exists s. }
  assert (∀ res : Completion, listOf res = setState l k (state_key ev) ev →
    ∃ s, listOf res = setState l k (state_key ev) s
         ∧ (s = ev ∨ ∃ u c, unsigned ev = Some u ∧ content ev = Some c
                            ∧ parses ev = true ∧ s = attach_rule ev u (ruleOf k c)))
    as Hplain.
  { intros res Hres. exists ev. split; [done | by left]. }
  apply Hwrap.
  destruct (classify (getState l k (state_key ev)) ev) as [ct |]; [| by apply Hplain].
  destruct ct as [[ | | ] |]; try apply Hparse.
  destruct (getState l k (state_key ev)) as [prev |]; [| apply Hparse].
  destruct (unsigned_rule prev) as [r |]; [| apply Hparse].
  apply Hplain. by destruct (unsigned ev).
Qed.

Lemma for_of_cons (l : BanList) (acc : list ListRuleChange) (ev : Event)
    (rest : list Event) :
  listOf (for_of l acc (ev :: rest))
  = match iteration l ev with
    | Normal l' pushed => listOf (for_of l' (acc ++ pushed) rest)
    | TypeError l' => l'
    end.
Proof. simpl. by destruct (iteration l ev). Qed.

(** What every turn of the loop keeps, a pass keeps, whether it completes
    or raises. *)
Lemma for_of_keeps (P : BanList → Prop) (evs : list Event) (l : BanList)
    (acc : list ListRuleChange) :
  (∀ l0 ev, ev ∈ evs → P l0 → P (listOf (iteration l0 ev))) →
  P l → P (listOf (for_of l acc evs)).
Proof.
  revert l acc. induction evs as [| ev evs IH]; intros l acc Hstep Hl; [done |].
  rewrite for_of_cons.
  pose proof (Hstep l ev (list_elem_of_here _ _) Hl) as Hl'.
  destruct (iteration l ev) as [l' pushed | l']; [| done].
  apply IH; [| done]. intros l0 e He. apply Hstep. by apply list_elem_of_further.
Qed.

Lemma getState_state (l l' : BanList) (k key : string) :
  state l' = state l → getState l' k key = getState l k key.
Proof. unfold getState. by intros ->. Qed.

Lemma type_attach_rule (ev : Event) (u : Unsigned) (r : ListRule) :
  type (attach_rule ev u r) = type ev.
Proof. done. Qed.

(** What [updateList] keeps of the table, pass after pass, whether the pass
    completes or raises: every event is stored under the kind of its type
    and under its own state key, which is not empty, and a rule attached to
    it is of that kind. So the test [rule.kind === kind] of [rulesOfKind]
    never drops a rule that a pass has attached. The events come from the
    store as it answers them, with no rule attached yet. *)
Theorem passes_keep_the_table_interned (l : BanList) (fetched : list Event) :
  interned l → Forall fresh fetched → interned (listOf (updateList l fetched)).
Proof.
  intros Hl Hf. unfold updateList. apply for_of_keeps; [| done].
  intros l0 ev Hin Hl0.
  assert (fresh ev) as Hfresh by (by eapply Forall_forall in Hf).
  destruct (iteration_effect l0 ev) as [Hst | (k & s & [Hk Hkey] & _ & -> & Hs)].
  { intros k key e. rewrite (getState_state _ _ _ _ Hst). apply Hl0. }
  intros k' key' e.
  destruct (decide ((k, state_key ev) = (k', key'))) as [[= <- <-] | Hne].
  - rewrite getState_setState. intros [= <-].
    destruct Hs as [-> | (u & c & Hu & Hc & Hp & ->)].
    + repeat split; try done. intros r Hr. by rewrite Hfresh in Hr.
    + repeat split; try done. intros r. unfold unsigned_rule. simpl. by intros [= <-].
  - rewrite getState_setState_ne by done. apply Hl0.
Qed.

(** The table after a pass over a room with a shortcode, two rules, an
    event of an old type and a rule that is not a ban. *)
Lemma passes_keep_the_table_interned_five :
  interned (listOf (updateList newBanList
                      [ev_shortcode; ev_add_a; ev_add_b; ev_legacy_a; ev_advice_a])).
Proof.
  apply (passes_keep_the_table_interned newBanList
           [ev_shortcode; ev_add_a; ev_add_b; ev_legacy_a; ev_advice_a]).
  - intros k key ev H. vm_compute in H. discriminate H.
  - repeat constructor.
Defined.

(** A pass never forgets an entry: what is stored for a kind and a state
    key stays stored (a deleted rule leaves its event behind, without a
    rule). And it leaves alone every entry for which it has fetched no rule
    event of that kind with that state key. Both hold of a pass that raises
    as of one that completes. *)
Theorem passes_touch_their_own_keys_only (l : BanList) (fetched : list Event)
    (k key : string) :
  (is_Some (getState l k key) →
   is_Some (getState (listOf (updateList l fetched)) k key))
  ∧ ((∀ ev, ev ∈ fetched → ¬ (rule_event k ev ∧ state_key ev = key)) →
     getState (listOf (updateList l fetched)) k key = getState l k key).
Proof.
  split.
  - intros Hl. unfold updateList.
    apply (for_of_keeps (λ l0, is_Some (getState l0 k key))); [| done].
    intros l0 ev _ Hl0.
    destruct (iteration_effect l0 ev) as [Hst | (k' & s & _ & _ & -> & _)].
    { by rewrite (getState_state _ _ _ _ Hst). }
    destruct (decide ((k', state_key ev) = (k, key))) as [[= <- <-] | Hne].
    + by rewrite getState_setState.
    + by rewrite getState_setState_ne.
  - intros Hout. unfold updateList.
    apply (for_of_keeps (λ l0, getState l0 k key = getState l k key)); [| done].
    intros l0 ev Hin Hl0.
    destruct (iteration_effect l0 ev) as [Hst | (k' & s & Hrule & _ & -> & _)].
    { by rewrite (getState_state _ _ _ _ Hst). }
    rewrite getState_setState_ne; [done |].
    intros [= -> Hkey]. by apply (Hout ev Hin).
Qed.

(** The guard on obsolete types, over a whole pass: the type of the event
    stored for a kind and a state key never moves to a later place in the
    alias table of the kind. Once an event of the current type is stored,
    events of the older types for the same state key are never stored
    over it. *)
Theorem passes_never_store_an_older_type (l : BanList) (fetched : list Event)
    (k key : string) (s : Event) :
  getState l k key = Some s →
  ∃ s', getState (listOf (updateList l fetched)) k key = Some s'
        ∧ indexOf (aliasTable k) (type s') <= indexOf (aliasTable k) (type s).
Proof.
  intros Hs. unfold updateList.
  apply (for_of_keeps (λ l0, ∃ s', getState l0 k key = Some s'
           ∧ indexOf (aliasTable k) (type s') <= indexOf (aliasTable k) (type s))).
  2: { exists s. split; [done | lia]. }
  intros l0 ev _ (s1 & Hs1 & Hle).
  destruct (iteration_effect l0 ev) as [Hst | (k' & s0 & _ & Hacc & -> & Hshape)].
  { exists s1. by rewrite (getState_state _ _ _ _ Hst). }
  destruct (decide ((k', state_key ev) = (k, key))) as [[= -> <-] | Hne].
  - exists s0. rewrite getState_setState. split; [done |].
    assert (type s0 = type ev) as ->.
    { by destruct Hshape as [-> | (u & c & _ & _ & _ & ->)]. }
    specialize (Hacc s1 Hs1). lia.
  - exists s1. by rewrite getState_setState_ne.
Qed.

(** With the rule for [@a] stored under the current type, a pass that
    fetches an event of an old type and a newer event of the current one. *)
Lemma passes_never_store_an_older_type_legacy :
  ∃ s', getState (listOf (updateList list_a [ev_legacy_a; ev_modify_a]))
                 RULE_USER "rule:@a" = Some s'
        ∧ indexOf (aliasTable RULE_USER) (type s')
          <= indexOf (aliasTable RULE_USER) (type (kept RULE_USER ev_add_a)).
Proof.
  apply (passes_never_store_an_older_type list_a [ev_legacy_a; ev_modify_a]
           RULE_USER "rule:@a" (kept RULE_USER ev_add_a)).
  vm_compute. reflexivity.
Defined.

End PassEffects.

(** ** The changes, one by one *)

Section Classification.

Lemma accepted_not_obsolete (l : BanList) (k : string) (ev : Event) :
  kindOf (type ev) = Some k → accepted l k ev →
  match getState l k (state_key ev) with
  | Some prev => obsolete k ev prev
  | None => false
  end = false.
Proof.
  intros Hk Hacc. destruct (getState l k (state_key ev)) as [prev |] eqn:Hprev; [| done].
  apply not_obsolete; [by apply kindOf_Some in Hk as [? _] | by apply Hacc].
Qed.

Lemma parse_rule_parsed (l : BanList) (k : string) (ev : Event)
    (previous : option Event) (ct : option ChangeType)
    (c : gmap string string) (u : Unsigned) :
  content ev = Some c → parses ev = true → unsigned ev = Some u →
  parse_rule l k ev previous ct
  = Normal (setState l k (state_key ev) (attach_rule ev u (ruleOf k c)))
      match ct with
      | Some t => [mkChange t (attach_rule ev u (ruleOf k c)) (sender ev)
                     (ruleOf k c) previous]
      | None => []
      end.
Proof.
  intros Hc Hp Hu. unfold parse_rule. unfold parses in Hp. rewrite Hc in *.
  apply andb_true_iff in Hp as [-> ->]. simpl. rewrite Hu. by destruct ct.
Qed.

Lemma parse_rule_bare (l : BanList) (k : string) (ev : Event)
    (previous : option Event) (ct : option ChangeType) :
  parses ev = true → unsigned ev = None →
  parse_rule l k ev previous ct = TypeError l.
Proof.
  intros Hp Hu. unfold parse_rule. unfold parses in Hp.
  destruct (content ev) as [c |]; [| done].
  apply andb_true_iff in Hp as [-> ->]. simpl. by rewrite Hu.
Qed.

Lemma surfaced (l : BanList) (k key : string) (ev : Event) (r : ListRule) :
  getState l k key = Some ev → unsigned_rule ev = Some r → kind r = k →
  recommendation r = RECOMMENDATION_BAN → r ∈ rulesOfKind l k.
Proof. intros. apply elem_of_rulesOfKind. by exists key, ev. Qed.

(** An event that is stored as it came, with no rule attached: the
    accessor of its kind then holds rules of other state keys only, which
    the table held before. *)
Lemma not_surfaced (l : BanList) (k : string) (ev : Event) (r : ListRule) :
  fresh ev → r ∈ rulesOfKind (setState l k (state_key ev) ev) k →
  ∃ key' ev', key' ≠ state_key ev ∧ getState l k key' = Some ev'
              ∧ unsigned_rule ev' = Some r.
Proof.
  intros Hf (key' & ev' & Hget & Hr & _)%elem_of_rulesOfKind.
  destruct (decide (key' = state_key ev)) as [-> | Hne].
  - rewrite getState_setState in Hget. injection Hget as <-. by rewrite Hf in Hr.
  - rewrite getState_setState_ne in Hget by congruence. by exists key', ev'.
Qed.

(** A rule event for a state key the table has nothing for, with an entity
    and a recommendation: the turn of the loop stores it with its rule
    attached and pushes one change, [Added], with no [previousState] and the
    sender of the event. The accessor of the kind returns the rule exactly
    when its recommendation is the ban: a rule with another recommendation
    is announced as [Added] and is not surfaced. *)
Theorem new_rule_is_added_and_surfaced (l : BanList) (k : string) (ev : Event)
    (c : gmap string string) (u : Unsigned) :
  rule_event k ev → getState l k (state_key ev) = None →
  content ev = Some c → parses ev = true → unsigned ev = Some u →
  let ev' := attach_rule ev u (ruleOf k c) in
  let l' := setState l k (state_key ev) ev' in
  iteration l ev = Normal l' [mkChange Added ev' (sender ev) (ruleOf k c) None]
  ∧ (c !! "recommendation" = Some RECOMMENDATION_BAN → ruleOf k c ∈ rulesOfKind l' k)
  ∧ (c !! "recommendation" ≠ Some RECOMMENDATION_BAN → ruleOf k c ∉ rulesOfKind l' k).
Proof.
  intros [Hk Hkey] Hnone Hc Hp Hu ev' l'.
  assert (unsigned_rule ev' = Some (ruleOf k c)) as Hr by done.
  split; [| split].
  - rewrite (iteration_rule_event _ _ _ Hk Hkey). unfold reconcile.
    rewrite Hnone. cbv beta iota zeta. unfold classify.
    rewrite (parse_rule_parsed _ _ _ _ _ c u) by done.
    by rewrite setState_setState.
  - intros Hban. apply (surfaced l' k (state_key ev) ev'); try done.
    + apply getState_setState.
    + simpl. by rewrite Hban.
  - intros Hban (key & e & _ & _ & _ & Hb)%elem_of_rulesOfKind.
    apply Hban. unfold parses in Hp. rewrite Hc in Hp.
    apply andb_true_iff in Hp as [_ Hrec]. simpl in Hb.
    destruct (c !! "recommendation") as [s |]; [| done]. simpl in Hb. by subst.
Qed.

(** The first rule of an empty list. *)
Lemma new_rule_is_added_and_surfaced_first :
  let ev' := attach_rule ev_add_a noUnsigned (ruleOf RULE_USER (banContent "@a" "spam")) in
  let l' := setState newBanList RULE_USER (state_key ev_add_a) ev' in
  iteration newBanList ev_add_a
  = Normal l' [mkChange Added ev' (sender ev_add_a)
                 (ruleOf RULE_USER (banContent "@a" "spam")) None]
  ∧ (banContent "@a" "spam" !! "recommendation" = Some RECOMMENDATION_BAN →
     ruleOf RULE_USER (banContent "@a" "spam") ∈ rulesOfKind l' RULE_USER)
  ∧ (banContent "@a" "spam" !! "recommendation" ≠ Some RECOMMENDATION_BAN →
     ruleOf RULE_USER (banContent "@a" "spam") ∉ rulesOfKind l' RULE_USER).
Proof.
  apply (new_rule_is_added_and_surfaced newBanList RULE_USER ev_add_a
           (banContent "@a" "spam") noUnsigned).
  - split; [reflexivity | discriminate].
  - reflexivity.
  - reflexivity.
  - vm_compute. reflexivity.
  - reflexivity.
Defined.

(** A rule event with another id than the one stored for its kind and state
    key, not of an older type, with an entity and a recommendation: one
    change, [Modified], with the new rule and the stored event as
    [previousState]; the new event takes the place of the stored one. *)
Theorem changed_rule_is_modified (l : BanList) (k : string) (ev prev : Event)
    (c : gmap string string) (u : Unsigned) :
  rule_event k ev → getState l k (state_key ev) = Some prev → accepted l k ev →
  event_id prev ≠ event_id ev →
  content ev = Some c → parses ev = true → unsigned ev = Some u →
  let ev' := attach_rule ev u (ruleOf k c) in
  let l' := setState l k (state_key ev) ev' in
  iteration l ev
  = Normal l' [mkChange Modified ev' (sender ev) (ruleOf k c) (Some prev)]
  ∧ getState l' k (state_key ev) = Some ev'.
Proof.
  intros [Hk Hkey] Hprev Hacc Hid Hc Hp Hu ev' l'. split; [| apply getState_setState].
  rewrite (iteration_rule_event _ _ _ Hk Hkey). unfold reconcile.
  rewrite (accepted_not_obsolete _ _ _ Hk Hacc), Hprev. cbv zeta.
  assert (c ≠ ∅) as Hne.
  { intros ->. unfold parses in Hp. by rewrite Hc in Hp. }
  unfold classify. rewrite (bool_decide_eq_false_2 _ Hid), Hc.
  rewrite (bool_decide_eq_false_2 _ Hne).
  rewrite (parse_rule_parsed _ _ _ _ _ c u) by done.
  by rewrite setState_setState.
Qed.

(** The rule for [@a] gets a new reason. *)
Lemma changed_rule_is_modified_reason :
  let ev' := attach_rule ev_modify_a noUnsigned
               (ruleOf RULE_USER (banContent "@a" "more spam")) in
  let l' := setState list_a RULE_USER (state_key ev_modify_a) ev' in
  iteration list_a ev_modify_a
  = Normal l' [mkChange Modified ev' (sender ev_modify_a)
                 (ruleOf RULE_USER (banContent "@a" "more spam"))
                 (Some (kept RULE_USER ev_add_a))]
  ∧ getState l' RULE_USER (state_key ev_modify_a) = Some ev'.
Proof.
  apply (changed_rule_is_modified list_a RULE_USER ev_modify_a (kept RULE_USER ev_add_a)
           (banContent "@a" "more spam") noUnsigned).
  - split; [reflexivity | discriminate].
  - vm_compute. reflexivity.
  - intros prev H. vm_compute in H. injection H as <-. vm_compute. discriminate.
  - vm_compute. discriminate.
  - reflexivity.
  - vm_compute. reflexivity.
  - reflexivity.
Defined.

(** A stored rule overwritten by an event whose content is not empty and
    has no entity or no recommendation: the change is classified as
    [Modified], the event is stored, the parsing gives up, and no change is
    pushed. The rule is gone from the table and from the accessor, and the
    pass reports nothing for it: neither [Removed] nor [Modified]. *)
Theorem rule_overwritten_by_invalid_content_is_lost_silently
    (l : BanList) (k : string) (ev prev : Event) (c : gmap string string) :
  rule_event k ev → getState l k (state_key ev) = Some prev → accepted l k ev →
  event_id prev ≠ event_id ev →
  content ev = Some c → c ≠ ∅ → parses ev = false → fresh ev →
  let l' := setState l k (state_key ev) ev in
  iteration l ev = Normal l' []
  ∧ getState l' k (state_key ev) ≫= unsigned_rule = None
  ∧ ∀ r, r ∈ rulesOfKind l' k →
         ∃ key' ev', key' ≠ state_key ev ∧ getState l k key' = Some ev'
                     ∧ unsigned_rule ev' = Some r.
Proof.
  intros [Hk Hkey] Hprev Hacc Hid Hc Hne Hp Hf l'. split; [| split].
  - rewrite (iteration_rule_event _ _ _ Hk Hkey). unfold reconcile.
    rewrite (accepted_not_obsolete _ _ _ Hk Hacc), Hprev. cbv zeta.
    unfold classify. rewrite (bool_decide_eq_false_2 _ Hid), Hc.
    rewrite (bool_decide_eq_false_2 _ Hne).
    by apply parse_rule_unparsed.
  - unfold l'. by rewrite getState_setState.
  - intros r. by apply not_surfaced.
Qed.

(** The rule for [@a] overwritten by an event with a reason only. *)
Lemma rule_overwritten_by_invalid_content_is_lost_silently_reason :
  let l' := setState list_a RULE_USER (state_key ev_invalid_a) ev_invalid_a in
  iteration list_a ev_invalid_a = Normal l' []
  ∧ getState l' RULE_USER (state_key ev_invalid_a) ≫= unsigned_rule = None
  ∧ ∀ r, r ∈ rulesOfKind l' RULE_USER →
         ∃ key' ev', key' ≠ state_key ev_invalid_a
                     ∧ getState list_a RULE_USER key' = Some ev'
                     ∧ unsigned_rule ev' = Some r.
Proof.
  apply (rule_overwritten_by_invalid_content_is_lost_silently list_a RULE_USER
           ev_invalid_a (kept RULE_USER ev_add_a) {[ "reason" := "oops" ]}).
  - split; [reflexivity | discriminate].
  - vm_compute. reflexivity.
  - intros prev H. vm_compute in H. injection H as <-. vm_compute. discriminate.
  - vm_compute. discriminate.
  - reflexivity.
  - intros H. apply (f_equal (λ m : gmap string string, m !! "reason")) in H.
    vm_compute in H. discriminate H.
  - vm_compute. reflexivity.
  - reflexivity.
Defined.

(** A deletion, soft or hard, of a stored rule: whenever the change is
    classified as [Removed] for an event that is not of an older type and
    carries its [unsigned], one change is pushed, with the former rule, and
    the accessor of the kind no longer returns a rule for that state key:
    what it returns comes from the other state keys. *)
Theorem deleted_rule_is_no_longer_surfaced (l : BanList) (k : string)
    (ev prev : Event) (r : ListRule) (u : Unsigned) :
  rule_event k ev → getState l k (state_key ev) = Some prev → accepted l k ev →
  unsigned_rule prev = Some r → fresh ev → stripped ev → unsigned ev = Some u →
  classify (Some prev) ev = Some (Some Removed) →
  ∃ c, iteration l ev = Normal (setState l k (state_key ev) ev) [c]
       ∧ changeType c = Removed ∧ change_rule c = r
       ∧ ∀ r', r' ∈ rulesOfKind (setState l k (state_key ev) ev) k →
               ∃ key' ev', key' ≠ state_key ev ∧ getState l k key' = Some ev'
                           ∧ unsigned_rule ev' = Some r'.
Proof.
  intros [Hk Hkey] Hprev Hacc Hr Hf Hs Hu Hcl.
  eexists. split; [| split; [| split]].
  - rewrite (iteration_rule_event _ _ _ Hk Hkey).
    apply (reconcile_removed l k ev prev r u); try done.
    rewrite <- (accepted_not_obsolete _ _ _ Hk Hacc). by rewrite Hprev.
  - done.
  - done.
  - intros r'. by apply not_surfaced.
Qed.

(** The rule for [@a] is deleted with an empty content. *)
Lemma deleted_rule_is_no_longer_surfaced_soft :
  ∃ c, iteration list_a ev_soft_delete_a
       = Normal (setState list_a RULE_USER (state_key ev_soft_delete_a) ev_soft_delete_a) [c]
       ∧ changeType c = Removed
       ∧ change_rule c = ruleOf RULE_USER (banContent "@a" "spam")
       ∧ ∀ r', r' ∈ rulesOfKind
                      (setState list_a RULE_USER (state_key ev_soft_delete_a)
                                ev_soft_delete_a) RULE_USER →
               ∃ key' ev', key' ≠ state_key ev_soft_delete_a
                           ∧ getState list_a RULE_USER key' = Some ev'
                           ∧ unsigned_rule ev' = Some r'.
Proof.
  apply (deleted_rule_is_no_longer_surfaced list_a RULE_USER ev_soft_delete_a
           (kept RULE_USER ev_add_a) (ruleOf RULE_USER (banContent "@a" "spam"))
           noUnsigned).
  - split; [reflexivity | discriminate].
  - vm_compute. reflexivity.
  - intros prev H. vm_compute in H. injection H as <-. vm_compute. discriminate.
  - vm_compute. reflexivity.
  - reflexivity.
  - intros H. vm_compute in H. discriminate H.
  - reflexivity.
  - vm_compute. reflexivity.
Defined.

(** A pass goes on from where the events before have left the list. *)
Lemma for_of_app (before rest : list Event) (l lb : BanList)
    (acc chs : list ListRuleChange) :
  for_of l acc before = Normal lb chs →
  for_of l acc (before ++ rest) = for_of lb chs rest.
Proof.
  revert l acc. induction before as [| ev before IH]; intros l acc; simpl.
  - by intros [= -> ->].
  - destruct (iteration l ev) as [l' pushed |]; [apply IH | done].
Qed.

(** A rule event with an entity and a recommendation and no [unsigned]
    property, met by a pass while the table holds no more recent type for
    its kind and state key, so that the guard on obsolete types lets it
    through: the event is stored as it is, then [event.unsigned.rule = rule]
    raises. The pass ends there, whatever comes after the event: it returns
    no change and leaves the table as the events before had made it, with
    the event stored without a rule. The stored event then has the id of
    the event, and a pass that begins with the event again classifies
    nothing, raises at the same place and leaves the list as it is. *)
Theorem rule_event_without_unsigned_ends_the_pass (l lb : BanList) (k : string)
    (ev : Event) (before : list Event) (changes : list ListRuleChange) :
  rule_event k ev → parses ev = true → unsigned ev = None →
  updateList l before = Normal lb changes → accepted lb k ev →
  let l1 := setState lb k (state_key ev) ev in
  (∀ rest, updateList l (before ++ ev :: rest) = TypeError l1)
  ∧ getState l1 k (state_key ev) = Some ev
  ∧ (∀ rest, updateList l1 (ev :: rest) = TypeError l1).
Proof.
  intros [Hk Hkey] Hp Hu Hbefore Hacc l1.
  assert (∀ l0, accepted l0 k ev →
            iteration l0 ev = TypeError (setState l0 k (state_key ev) ev)) as Hraise.
  { intros l0 Hacc0. rewrite (iteration_rule_event _ _ _ Hk Hkey). unfold reconcile.
    rewrite (accepted_not_obsolete _ _ _ Hk Hacc0). cbv zeta.
    assert (∃ ct, classify (getState l0 k (state_key ev)) ev = Some ct) as [ct ->].
    { unfold classify, parses in *.
      destruct (getState l0 k (state_key ev)); [| by eexists].
      destruct (content ev); [| done].
      repeat case_bool_decide; destruct (unsigned_redacted_because ev); by eexists. }
    destruct ct as [[ | | ] |]; try by apply parse_rule_bare.
    destruct (getState l0 k (state_key ev)) as [prev |]; [| by apply parse_rule_bare].
    destruct (unsigned_rule prev); [by rewrite Hu | by apply parse_rule_bare]. }
  split; [| split].
  - intros rest. unfold updateList in *. rewrite (for_of_app _ _ _ _ _ _ Hbefore).
    simpl. by rewrite Hraise.
  - apply getState_setState.
  - intros rest. unfold updateList. simpl. rewrite Hraise.
    + unfold l1. by rewrite setState_setState.
    + intros prev. unfold l1. rewrite getState_setState. intros [= <-]. lia.
Qed.

(** The rule for [@a], answered without [unsigned] after the shortcode and
    the rule for [#b]. *)
Lemma rule_event_without_unsigned_ends_the_pass_third :
  let l1 := setState (listOf (updateList newBanList [ev_shortcode; ev_add_b]))
              RULE_USER (state_key ev_bare_add_a) ev_bare_add_a in
  (∀ rest, updateList newBanList ([ev_shortcode; ev_add_b] ++ ev_bare_add_a :: rest)
           = TypeError l1)
  ∧ getState l1 RULE_USER (state_key ev_bare_add_a) = Some ev_bare_add_a
  ∧ (∀ rest, updateList l1 (ev_bare_add_a :: rest) = TypeError l1).
Proof.
  apply (rule_event_without_unsigned_ends_the_pass newBanList
           (listOf (updateList newBanList [ev_shortcode; ev_add_b])) RULE_USER
           ev_bare_add_a [ev_shortcode; ev_add_b]
           [mkChange Added (kept RULE_ROOM ev_add_b) "@mod"
              (ruleOf RULE_ROOM (banContent "#b" "abuse")) None]).
  - split; [reflexivity | discriminate].
  - vm_compute. reflexivity.
  - reflexivity.
  - vm_compute. reflexivity.
  - intros prev H. vm_compute in H. discriminate H.
Defined.

End Classification.

(** ** The changes of a pass *)

Section Changes.

Lemma classify_added (previous : option Event) (ev : Event) (t : ChangeType) :
  classify previous ev = Some (Some t) → (t = Added ↔ previous = None).
Proof.
  unfold classify. destruct previous as [prev |]; [| by intros [= <-]].
  case_bool_decide.
  - destruct (unsigned_redacted_because ev); intros [= <-]; by split.
  - destruct (content ev) as [c |]; [| done].
    case_bool_decide; intros [= <-]; by split.
Qed.

(** The changes of one turn of the loop: none, or one, which is about the
    event of the turn and names what the table held before it. *)
Lemma iteration_pushes (l l' : BanList) (ev : Event) (pushed : list ListRuleChange) :
  iteration l ev = Normal l' pushed →
  pushed = []
  ∨ ∃ k c, pushed = [c] ∧ rule_event k ev
           ∧ previousState c = getState l k (state_key ev)
           ∧ (changeType c = Added ↔ previousState c = None)
           ∧ type (event c) = type ev ∧ state_key (event c) = state_key ev
           ∧ event_id (event c) = event_id ev
           ∧ (changeType c ≠ Removed →
              unsigned_rule (event c) = Some (change_rule c)
              ∧ kind (change_rule c) = k ∧ change_sender c = sender ev).
Proof.
  destruct (iteration_cases l ev) as [[sc ->] | (k & Hk & Hkey & ->)].
  { intros [= <- <-]. by left. }
  unfold reconcile. cbv zeta.
  destruct (match getState l k (state_key ev) with
            | Some prev => obsolete k ev prev | None => false end).
  { intros [= <- <-]. by left. }
  destruct (classify (getState l k (state_key ev)) ev) as [ct |] eqn:Hcl; [| done].
  assert (∀ l0, parse_rule l0 k ev (getState l k (state_key ev)) ct = Normal l' pushed →
    pushed = []
    ∨ ∃ k c, pushed = [c] ∧ rule_event k ev
           ∧ previousState c = getState l k (state_key ev)
           ∧ (changeType c = Added ↔ previousState c = None)
           ∧ type (event c) = type ev ∧ state_key (event c) = state_key ev
           ∧ event_id (event c) = event_id ev
           ∧ (changeType c ≠ Removed →
              unsigned_rule (event c) = Some (change_rule c)
              ∧ kind (change_rule c) = k ∧ change_sender c = sender ev)) as Hparse.
  { intros l0. unfold parse_rule.
    destruct (content ev) as [c |]; [| intros [= <- <-]; by left].
    destruct (negb _ || negb _); [intros [= <- <-]; by left |].
    destruct (unsigned ev) as [u |]; [| done].
    destruct ct as [t |]; intros [= <- <-]; [| by left].
    right. eexists k, _. split; [done |]. simpl.
    split; [done |]. split; [done |].
    split; [by apply (classify_added _ ev) |]. done. }
  destruct ct as [[ | | ] |]; try apply Hparse.
  destruct (getState l k (state_key ev)) as [prev |] eqn:Hprev; [| apply Hparse].
  destruct (unsigned_rule prev) as [r |]; [| apply Hparse].
  destruct (unsigned ev) as [u |]; [| done].
  intros [= <- <-]. right. eexists k, _. split; [done |]. simpl.
  rewrite Hprev. repeat split; try done.
Qed.

Lemma for_of_changes (Q : Event → ListRuleChange → Prop) (evs : list Event)
    (l l' : BanList) (acc chs : list ListRuleChange) :
  (∀ l0 l1 ev pushed c, ev ∈ evs → iteration l0 ev = Normal l1 pushed →
                        c ∈ pushed → Q ev c) →
  for_of l acc evs = Normal l' chs →
  ∀ c, c ∈ chs → c ∈ acc ∨ ∃ ev, ev ∈ evs ∧ Q ev c.
Proof.
  revert l acc. induction evs as [| ev evs IH]; intros l acc HQ; simpl.
  { intros [= <- <-] c Hc. by left. }
  destruct (iteration l ev) as [l1 pushed |] eqn:Hit; [| done].
  intros Hrun c Hc.
  destruct (IH l1 (acc ++ pushed)%list) with (c := c) as [Hin | (e & He & Hq)];
    try done.
  - intros l0 l2 e p c0 He. apply HQ. by apply list_elem_of_further.
  - apply elem_of_app in Hin as [Hin | Hin]; [by left |].
    right. exists ev. split; [apply list_elem_of_here |].
    eapply HQ; [apply list_elem_of_here | done | done].
  - right. exists e. split; [by apply list_elem_of_further | done].
Qed.

Lemma is_rule_event_true (k : string) (ev : Event) :
  rule_event k ev → is_rule_event ev = true.
Proof.
  intros [Hk Hkey]. unfold is_rule_event.
  rewrite (bool_decide_eq_true_2 _ Hkey). simpl.
  apply bool_decide_eq_true_2. by rewrite Hk.
Qed.

Lemma for_of_length (evs : list Event) (l l' : BanList)
    (acc chs : list ListRuleChange) :
  for_of l acc evs = Normal l' chs →
  (length chs <= length acc + length (filter (λ ev, is_rule_event ev = true) evs))%nat.
Proof.
  revert l acc. induction evs as [| ev evs IH]; intros l acc; simpl.
  { intros [= <- <-]. lia. }
  destruct (iteration l ev) as [l1 pushed |] eqn:Hit; [| done].
  intros Hrun. apply IH in Hrun. rewrite length_app in Hrun.
  destruct (iteration_pushes _ _ _ _ Hit) as [-> | (k & c & -> & Hrule & _)].
  - simpl in Hrun. rewrite filter_cons. destruct (decide _); simpl; lia.
  - rewrite filter_cons_True by by eapply is_rule_event_true. simpl in *. lia.
Qed.

(** What the changes of a completed pass are, for every list and every
    fetched state. A change is [Added] exactly when it has no
    [previousState] (so [Modified] and [Removed] always have one). Every
    change is about a fetched rule event: its event has the type, state key
    and id of one. Unless the change is [Removed], its rule is the one now
    attached to its event, is of the kind of the event, and its sender is
    the sender of the event. *)
Theorem changes_describe_fetched_rule_events (l l' : BanList) (fetched : list Event)
    (changes : list ListRuleChange) (c : ListRuleChange) :
  updateList l fetched = Normal l' changes → c ∈ changes →
  (changeType c = Added ↔ previousState c = None)
  ∧ ∃ ev k, ev ∈ fetched ∧ rule_event k ev
            ∧ type (event c) = type ev ∧ state_key (event c) = state_key ev
            ∧ event_id (event c) = event_id ev
            ∧ (changeType c ≠ Removed →
               unsigned_rule (event c) = Some (change_rule c)
               ∧ kind (change_rule c) = k ∧ change_sender c = sender ev).
Proof.
  intros Hrun Hc.
  destruct (for_of_changes
    (λ ev c, (changeType c = Added ↔ previousState c = None)
             ∧ ∃ k, rule_event k ev
               ∧ type (event c) = type ev ∧ state_key (event c) = state_key ev
               ∧ event_id (event c) = event_id ev
               ∧ (changeType c ≠ Removed →
                  unsigned_rule (event c) = Some (change_rule c)
                  ∧ kind (change_rule c) = k ∧ change_sender c = sender ev))
    fetched l l' [] changes) with (c := c) as [Hin | (ev & Hev & Hadd & k & Hk)];
    try done.
  - intros l0 l1 ev pushed c0 _ Hit Hc0.
    destruct (iteration_pushes _ _ _ _ Hit)
      as [-> | (k & c1 & -> & Hrule & _ & Hadd & Hrest)].
    { by apply elem_of_nil in Hc0. }
    apply list_elem_of_singleton in Hc0 as ->. split; [done |]. by exists k.
  - by apply elem_of_nil in Hin.
  - split; [done |]. by exists ev, k.
Qed.

(** The one change of the first pass over a room with a shortcode and a
    rule. *)
Lemma changes_describe_fetched_rule_events_first :
  let c := mkChange Added (kept RULE_USER ev_add_a) "@mod"
             (ruleOf RULE_USER (banContent "@a" "spam")) None in
  (changeType c = Added ↔ previousState c = None)
  ∧ ∃ ev k, ev ∈ [ev_shortcode; ev_add_a] ∧ rule_event k ev
            ∧ type (event c) = type ev ∧ state_key (event c) = state_key ev
            ∧ event_id (event c) = event_id ev
            ∧ (changeType c ≠ Removed →
               unsigned_rule (event c) = Some (change_rule c)
               ∧ kind (change_rule c) = k ∧ change_sender c = sender ev).
Proof.
  apply (changes_describe_fetched_rule_events newBanList
           (listOf (updateList newBanList [ev_shortcode; ev_add_a]))
           [ev_shortcode; ev_add_a]
           [mkChange Added (kept RULE_USER ev_add_a) "@mod"
              (ruleOf RULE_USER (banContent "@a" "spam")) None]).
  - vm_compute. reflexivity.
  - apply list_elem_of_here.
Defined.

(** A completed pass pushes at most one change for each fetched rule event
    (an event with a state key and a type of one of the alias tables), and
    so no more changes than events fetched: the shortcode event, events of
    other types and events without a state key push nothing. *)
Theorem at_most_one_change_per_rule_event (l l' : BanList) (fetched : list Event)
    (changes : list ListRuleChange) :
  updateList l fetched = Normal l' changes →
  (length changes <= length (filter (λ ev, is_rule_event ev = true) fetched))%nat
  ∧ (length changes <= length fetched)%nat.
Proof.
  intros Hrun%for_of_length. simpl in Hrun. split; [done |].
  etrans; [done |]. apply length_filter.
Qed.

(** Five events, four of them rule events. *)
Lemma at_most_one_change_per_rule_event_five :
  ∃ l' changes,
    updateList newBanList [ev_shortcode; ev_add_a; ev_add_b; ev_legacy_a; ev_advice_a]
    = Normal l' changes
    ∧ (length changes
       <= length (filter (λ ev, is_rule_event ev = true)
                    [ev_shortcode; ev_add_a; ev_add_b; ev_legacy_a; ev_advice_a]))%nat
    ∧ (length changes
       <= length [ev_shortcode; ev_add_a; ev_add_b; ev_legacy_a; ev_advice_a])%nat.
Proof.
  destruct (updateList newBanList
              [ev_shortcode; ev_add_a; ev_add_b; ev_legacy_a; ev_advice_a])
    as [l' changes | l'] eqn:H.
  - exists l', changes. split; [reflexivity |].
    apply (at_most_one_change_per_rule_event newBanList l' _ changes H).
  - vm_compute in H. discriminate H.
Defined.

Lemma shortcode_setState (l : BanList) (k key : string) (ev : Event) :
  shortcode (setState l k key ev) = shortcode l.
Proof. unfold setState. by destruct (state l !! k). Qed.

Lemma shortcode_parse_rule (l : BanList) (k : string) (ev : Event)
    (previous : option Event) (ct : option ChangeType) :
  shortcode (listOf (parse_rule l k ev previous ct)) = shortcode l.
Proof.
  unfold parse_rule. destruct (content ev); [| done].
  destruct (negb _ || negb _); [done |].
  destruct (unsigned ev); [| done].
  destruct ct; apply shortcode_setState.
Qed.

(** The shortcode event sets the shortcode and nothing else; no other event
    touches the shortcode. *)
Lemma iteration_shortcode (l : BanList) (ev : Event) :
  (is_shortcode_event ev = true →
   iteration l ev = Normal (mkBanList (shortcodeOf ev) (state l)) [])
  ∧ (is_shortcode_event ev = false →
     shortcode (listOf (iteration l ev)) = shortcode l).
Proof.
  split.
  - unfold is_shortcode_event, iteration. by intros ->.
  - unfold is_shortcode_event, iteration. intros ->.
    destruct (bool_decide (state_key ev = "") || _); [done |].
    destruct (kindOf (type ev)) as [k |]; [| done].
    unfold reconcile. cbv zeta.
    destruct (match getState l k (state_key ev) with
              | Some prev => obsolete k ev prev | None => false end); [done |].
    destruct (classify _ ev) as [ct |]; [| apply shortcode_setState].
    assert (∀ p, shortcode (listOf (parse_rule (setState l k (state_key ev) ev)
                                      k ev p ct)) = shortcode l) as Hp.
    { intros p. by rewrite shortcode_parse_rule, shortcode_setState. }
    destruct ct as [[ | | ] |]; try apply Hp.
    destruct (getState l k (state_key ev)) as [prev |]; [| apply Hp].
    destruct (unsigned_rule prev); [| apply Hp].
    destruct (unsigned ev); apply shortcode_setState.
Qed.

(** The shortcode after a completed pass is the one of the last event of
    type [SHORTCODE_EVENT_TYPE] with an empty state key among those fetched
    ([null] when that event has no shortcode, or an empty one); when none is
    fetched the shortcode is left as it was. Rule events never touch it. *)
Theorem pass_reads_the_last_shortcode (l l' : BanList) (fetched : list Event)
    (changes : list ListRuleChange) :
  updateList l fetched = Normal l' changes →
  shortcode l'
  = match last (filter (λ ev, is_shortcode_event ev = true) fetched) with
    | Some ev => shortcodeOf ev
    | None => shortcode l
    end.
Proof.
  unfold updateList. generalize (@nil ListRuleChange).
  revert l. induction fetched as [| ev evs IH]; intros l acc; simpl.
  { by intros [= <- <-]. }
  destruct (iteration l ev) as [l1 pushed |] eqn:Hit; [| done].
  intros Hrun. rewrite (IH _ _ Hrun). rewrite filter_cons.
  destruct (iteration_shortcode l ev) as [Hyes Hno].
  destruct (decide (is_shortcode_event ev = true)) as [Hs | Hs].
  - rewrite last_cons. rewrite (Hyes Hs) in Hit. injection Hit as <- <-.
    by destruct (last _).
  - apply not_true_is_false in Hs. specialize (Hno Hs). rewrite Hit in Hno.
    simpl in Hno. by rewrite Hno.
Qed.

(** The shortcode of a room is read by the first pass. *)
Lemma pass_reads_the_last_shortcode_first :
  shortcode (listOf (updateList newBanList [ev_add_a; ev_shortcode; ev_add_b]))
  = Some "spam-list".
Proof.
  destruct (updateList newBanList [ev_add_a; ev_shortcode; ev_add_b])
    as [l' changes | l'] eqn:H.
  - simpl. rewrite (pass_reads_the_last_shortcode newBanList l' _ changes H).
    vm_compute. reflexivity.
  - vm_compute in H. discriminate H.
Defined.

End Changes.

(** ** The table and the accessors *)

Section Table.

(** [getState] and [setState], the table indexed by state type and then by
    state key: what is stored is read back; every other entry, of the same
    type or of another one, is as before, also when the type had no table
    yet; a second store for the same entry replaces the first; storing what
    is there changes nothing; the shortcode is not touched; and a new list
    holds nothing. *)
Theorem setState_stores_one_entry (l : BanList) (k key : string) (ev : Event) :
  getState (setState l k key ev) k key = Some ev
  ∧ (∀ k' key', (k, key) ≠ (k', key') →
       getState (setState l k key ev) k' key' = getState l k' key')
  ∧ (∀ ev0, setState (setState l k key ev0) k key ev = setState l k key ev)
  ∧ (getState l k key = Some ev → setState l k key ev = l)
  ∧ shortcode (setState l k key ev) = shortcode l
  ∧ getState newBanList k key = None.
Proof.
  split; [apply getState_setState |].
  split; [intros k' key' Hne; by apply getState_setState_ne |].
  split; [intros ev0; apply setState_setState |].
  split; [apply setState_id |].
  split; [apply shortcode_setState | done].
Qed.

(** [allRules] is complete as well as sound: a rule is returned exactly when
    it is attached to an event stored under one of the three kinds, is of
    that kind and recommends the ban. Each accessor returns rules of its own
    kind only, so no rule is returned by two of them. *)
Theorem allRules_is_the_bans_of_the_three_kinds (l : BanList) (r : ListRule) :
  (r ∈ allRules l ↔
   ∃ k key ev, k ∈ [RULE_SERVER; RULE_USER; RULE_ROOM]
               ∧ getState l k key = Some ev ∧ unsigned_rule ev = Some r
               ∧ kind r = k ∧ recommendation r = RECOMMENDATION_BAN)
  ∧ (r ∈ serverRules l → kind r = RULE_SERVER)
  ∧ (r ∈ userRules l → kind r = RULE_USER)
  ∧ (r ∈ roomRules l → kind r = RULE_ROOM)
  ∧ ¬ (r ∈ userRules l ∧ r ∈ roomRules l)
  ∧ ¬ (r ∈ userRules l ∧ r ∈ serverRules l)
  ∧ ¬ (r ∈ roomRules l ∧ r ∈ serverRules l).
Proof.
  assert (∀ k, r ∈ rulesOfKind l k → kind r = k) as Hkind.
  { intros k (key & ev & _ & _ & Hk & _)%elem_of_rulesOfKind. exact Hk. }
  unfold allRules, serverRules, userRules, roomRules.
  split; [| split; [apply Hkind | split; [apply Hkind | split; [apply Hkind |]]]].
  - rewrite !elem_of_app, !elem_of_rulesOfKind. split.
    + intros [(key & ev & H) | [(key & ev & H) | (key & ev & H)]].
      * exists RULE_SERVER, key, ev. split; [rewrite !elem_of_cons; auto | done].
      * exists RULE_USER, key, ev. split; [rewrite !elem_of_cons; auto | done].
      * exists RULE_ROOM, key, ev. split; [rewrite !elem_of_cons; auto | done].
    + intros (k & key & ev & Hk & H).
      repeat (apply elem_of_cons in Hk as [-> | Hk]); [| | | by apply elem_of_nil in Hk].
      * left. by exists key, ev.
      * right. left. by exists key, ev.
      * right. right. by exists key, ev.
  - repeat split; intros [H1%Hkind H2%Hkind]; rewrite H1 in H2; discriminate H2.
Qed.

End Table.

(** ** [ruleTypeToStable] *)

Section Stable.

Ltac in_table H :=
  match type of H with
  | _ ∈ ?l => let l' := eval vm_compute in l in change l with l' in H
  end;
  rewrite ?elem_of_cons, elem_of_nil in H;
  repeat (destruct H as [-> | H]); [.. | destruct H].

(** [ruleTypeToStable]: a type of one of the alias tables is mapped to a
    type of the same kind, which the function maps to itself; without
    [unstable] it is the kind itself, the first type of the table, and with
    it the last one. Every other type is mapped to [null]. *)
Theorem ruleTypeToStable_stays_in_the_kind (t : string) (unstable : bool) :
  match ruleTypeToStable t unstable with
  | Some s =>
      ∃ k, kindOf t = Some k ∧ kindOf s = Some k
           ∧ ruleTypeToStable s unstable = Some s
           ∧ (unstable = false → s = k)
           ∧ (unstable = true →
              ∀ t', t' ∈ aliasTable k →
                    indexOf (aliasTable k) t' <= indexOf (aliasTable k) s)
  | None => kindOf t = None ∧ t ∉ ALL_RULE_TYPES
  end.
Proof.
  unfold ruleTypeToStable, kindOf.
  destruct (includes USER_RULE_TYPES t) eqn:Hu.
  { exists RULE_USER. destruct unstable; repeat split; try done.
    intros _ t' Ht'. by in_table Ht'. }
  destruct (includes ROOM_RULE_TYPES t) eqn:Hr.
  { exists RULE_ROOM. destruct unstable; repeat split; try done.
    intros _ t' Ht'. by in_table Ht'. }
  destruct (includes SERVER_RULE_TYPES t) eqn:Hs.
  { exists RULE_SERVER. destruct unstable; repeat split; try done.
    intros _ t' Ht'. by in_table Ht'. }
  split; [done |]. apply includes_false in Hu, Hr, Hs.
  unfold ALL_RULE_TYPES. rewrite !elem_of_app. tauto.
Qed.

End Stable.

(** ** The shortcode *)

Section Shortcode.

(** [set listShortcode]: the getter answers the new value at once, the
    table is not touched, one state event of type [SHORTCODE_EVENT_TYPE] with
    an empty state key and the shortcode as content is sent; and when that
    request is rejected with nothing else done in between, the list is back
    as it was. *)
Theorem rejected_shortcode_is_rolled_back (l : BanList) (value : string) :
  let l1 := (set_listShortcode l value).1 in
  let w := (set_listShortcode l value).2 in
  listShortcode l1 = value
  ∧ state l1 = state l
  ∧ sent w = (SHORTCODE_EVENT_TYPE, "", {[ "shortcode" := value ]})
  ∧ shortcode_rejected w l1 = l.
Proof.
  simpl. split; [| split; [done | split; [done |]]].
  - unfold listShortcode. simpl. case_bool_decide as H; [done |].
    destruct (decide (value = "")) as [-> | Hne]; [done | by destruct H].
  - unfold shortcode_rejected. simpl. rewrite bool_decide_eq_true_2 by done.
    by destruct l.
Qed.

(** Two calls of [set listShortcode] with different values, [a] then [b].
    When the request of the first is rejected, the shortcode stays [b]. When
    the request of the second is rejected after that, the shortcode goes back
    to [a], the value whose own request has been rejected. Rejected in the
    other order, the two calls leave the shortcode as it was before them. *)
Theorem superseded_shortcode_is_not_rolled_back (l : BanList) (a b : string) :
  a ≠ b →
  let l1 := (set_listShortcode l a).1 in
  let wa := (set_listShortcode l a).2 in
  let l2 := (set_listShortcode l1 b).1 in
  let wb := (set_listShortcode l1 b).2 in
  shortcode_rejected wa l2 = l2
  ∧ shortcode (shortcode_rejected wb (shortcode_rejected wa l2)) = Some a
  ∧ shortcode (shortcode_rejected wa (shortcode_rejected wb l2)) = shortcode l.
Proof.
  intros Hne. simpl. unfold shortcode_rejected. simpl.
  rewrite (bool_decide_eq_false_2 (Some b = Some a)) by congruence.
  rewrite !(bool_decide_eq_true_2 (Some b = Some b)) by done. simpl.
  rewrite (bool_decide_eq_true_2 (Some a = Some a)) by done. done.
Qed.

(** Two shortcodes for a new list. *)
Lemma superseded_shortcode_is_not_rolled_back_ab :
  let l1 := (set_listShortcode newBanList "a").1 in
  let wa := (set_listShortcode newBanList "a").2 in
  let l2 := (set_listShortcode l1 "b").1 in
  let wb := (set_listShortcode l1 "b").2 in
  shortcode_rejected wa l2 = l2
  ∧ shortcode (shortcode_rejected wb (shortcode_rejected wa l2)) = Some "a"
  ∧ shortcode (shortcode_rejected wa (shortcode_rejected wb l2)) = shortcode newBanList.
Proof.
  apply (superseded_shortcode_is_not_rolled_back newBanList "a" "b"). discriminate.
Defined.

(** The handler compares values, not calls: when the same shortcode is set
    twice and the request of the first call is rejected, the shortcode goes
    back to what it was before the first call, whatever becomes of the
    request of the second. *)
Theorem repeated_shortcode_is_rolled_back_by_the_first_failure
    (l : BanList) (a : string) :
  let l1 := (set_listShortcode l a).1 in
  let w1 := (set_listShortcode l a).2 in
  let l2 := (set_listShortcode l1 a).1 in
  shortcode l2 = Some a ∧ shortcode_rejected w1 l2 = l.
Proof.
  simpl. split; [done |]. unfold shortcode_rejected. simpl.
  rewrite bool_decide_eq_true_2 by done. by destruct l.
Qed.

End Shortcode.

(** ** [unbanEntity], for every rule type *)

Section UnbanWrites.

Lemma lookups_found (client : MatrixClient) (stateKey : string) (types : list string)
    (found : list (option string)) (t : string) :
  Promise_all (lookupType client stateKey <$> types) = inr found →
  t ∈ omap (λ e, if truthy e then e else None) found →
  t ∈ types ∧ holds client stateKey t = true.
Proof.
  revert found. induction types as [| t0 types IH]; intros found.
  { intros [= <-] Hin. by apply elem_of_nil in Hin. }
  rewrite fmap_cons. cbn [Promise_all]. unfold lookupType at 1.
  destruct (getRoomStateEvent client t0 stateKey) as [e | c] eqn:Hget.
  - destruct (statusCode e =? 404); [| done].
    destruct (Promise_all _) as [| found']; [done |]. intros [= <-]. simpl.
    intros Hin. destruct (IH found' eq_refl Hin). split; [| done].
    by apply list_elem_of_further.
  - destruct (Promise_all _) as [| found']; [done |]. intros [= <-].
    cbn [omap list_omap truthy]. case_bool_decide.
    + intros [-> | Hin]%elem_of_cons.
      * split; [apply list_elem_of_here |]. unfold holds. by rewrite Hget.
      * destruct (IH found' eq_refl Hin). split; [| done].
        by apply list_elem_of_further.
    + intros Hin. destruct (IH found' eq_refl Hin). split; [| done].
      by apply list_elem_of_further.
Qed.

(** [unbanEntity] for every rule type, also one that is not a kind: the
    state key is ["rule:"] followed by the entity; every write has an empty
    content and goes to that state key, for a type that has been looked up
    and for which the lookup has found an event; the answer is [true] only
    if a write has been made and [false] only if none has; and a rejection
    is the one of a lookup (not a 404), with no write made, or the one of a
    write. *)
Theorem unbanEntity_writes_only_what_it_found (client : MatrixClient)
    (ruleType entity : string) :
  let stateKey := "rule:" +:+ entity in
  let u := unbanEntity client ruleType entity in
  lookups u = (λ t, (t, stateKey)) <$> typesToCheck ruleType
  ∧ (∀ w, w ∈ writes u →
       ∃ t, w = (t, stateKey, ∅) ∧ (t, stateKey) ∈ lookups u
            ∧ holds client stateKey t = true)
  ∧ (settled u = Resolved true → writes u ≠ [])
  ∧ (settled u = Resolved false → writes u = [])
  ∧ (∀ e, settled u = Rejected e →
       (writes u = [] ∧ ∃ t, t ∈ typesToCheck ruleType
                             ∧ lookup_failure client stateKey t = Some e)
       ∨ ∃ t, (t, stateKey, ∅) ∈ writes u ∧ write_failure client stateKey t = Some e).
Proof.
  intros stateKey u. unfold u, unbanEntity, unbanTypes. fold stateKey.
  destruct (Promise_all (lookupType client stateKey <$> typesToCheck ruleType))
    as [e | found] eqn:Hlook; simpl.
  { split; [done |]. split; [by intros w ?%elem_of_nil |].
    split; [done |]. split; [done |]. intros e' [= <-]. left. split; [done |].
    apply Promise_all_rejected, list_elem_of_fmap in Hlook as (t & Ht & Hin).
    exists t. split; [done |]. by apply lookupType_rejected. }
  set (toRemove := omap (λ e, if truthy e then e else None) found).
  assert (∀ w, w ∈ (λ t, (t, stateKey, (∅ : gmap string string))) <$> toRemove →
            ∃ t, w = (t, stateKey, ∅)
                 ∧ (t, stateKey) ∈ (λ t, (t, stateKey)) <$> typesToCheck ruleType
                 ∧ holds client stateKey t = true) as Hw.
  { intros w (t & -> & Hin)%list_elem_of_fmap. exists t. split; [done |].
    destruct (lookups_found _ _ _ _ _ Hlook Hin) as [Ht Hh]. split; [| done].
    apply list_elem_of_fmap. by exists t. }
  case_bool_decide as Hlen; simpl.
  { split; [done |]. split; [by intros w ?%elem_of_nil |]. done. }
  assert (toRemove ≠ []) as Hne by (intros Heq; apply Hlen; by rewrite Heq).
  destruct (Promise_all ((λ t, sendStateEvent client t stateKey ∅) <$> toRemove))
    as [e | l] eqn:Hsend; simpl.
  - split; [done |]. split; [exact Hw |]. split; [done |]. split; [done |].
    intros e' [= <-]. right.
    apply sends_rejected in Hsend as (t & Hin & Hf). exists t. split; [| done].
    apply list_elem_of_fmap. by exists t.
  - split; [done |]. split; [exact Hw |]. split.
    + intros _ Hnil. apply fmap_nil_inv in Hnil. done.
    + done.
Qed.

End UnbanWrites.

(** ** The batcher over a run of notifications *)

Module BatcherRunFacts.
Import UpdateBatcher BatcherFacts BatcherRuns.

Lemma coherent_loops (w : World) :
  coherent w → loops w = [] ∨ ∃ p, loops w = [p].
Proof. intros [[[H _] | (p & H & _)] _]; [by left | right; by exists p]. Qed.

Lemma advance_keeps (P : World → Prop) (fuel : nat) (now : Z) (w : World) :
  (∀ w p, coherent w → loops w = [p] → P w → P (fire p w)) →
  coherent w → P w → P (advance fuel now w).
Proof.
  intros Hfire. revert w. induction fuel as [| fuel IH]; intros w Hc HP; [done |].
  simpl. destruct (coherent_loops w Hc) as [Hl | [p Hl]]; rewrite Hl; simpl; [done |].
  destruct (wake p <=? now); [| done].
  apply IH; [by apply coherent_fire | by apply Hfire].
Qed.

Lemma coherent_advance_to (now : Z) (w : World) :
  coherent w → coherent (advance_to now w).
Proof. apply coherent_advance. Qed.

Lemma coherent_quiesce (w : World) : coherent w → coherent (quiesce w).
Proof. apply coherent_advance. Qed.

Lemma run_app (a b : list (Z * string)) (w : World) :
  run (a ++ b) w = run b (run a w).
Proof.
  revert w. induction a as [| [now id] a IH]; intros w; [done |]. simpl. apply IH.
Qed.

(** ** Loops go on until they emit *)

Lemma carried_fire (p q : Loop) (w : World) :
  loops w = [q] → carried p w → carried p (fire q w).
Proof.
  intros Hl (r & Hin & Hid & Hst & Hwk). rewrite (fire_single _ _ Hl).
  rewrite Hl in Hin. destruct Hin as [Hin | Hin].
  - apply list_elem_of_singleton in Hin as ->.
    destruct (_ && _).
    + exists (mkLoop (eventId q) (start q) (wake q + waitPeriodMS)). simpl.
      split; [left; apply list_elem_of_here |]. unfold waitPeriodMS. repeat split; [done.. | lia].
    + exists q. simpl. split; [| done]. right. apply elem_of_app. right.
      apply list_elem_of_here.
  - exists r. split; [| done]. right. destruct (_ && _); simpl; [done |].
    apply elem_of_app. by left.
Qed.

Lemma carried_advance (p : Loop) (fuel : nat) (now : Z) (w : World) :
  coherent w → carried p w → carried p (advance fuel now w).
Proof.
  apply (advance_keeps (carried p)). intros w' q _ Hl. by apply carried_fire.
Qed.

Lemma carried_addToBatch (p : Loop) (now : Z) (id : string) (w : World) :
  carried p w → carried p (addToBatch now id w).
Proof.
  intros (r & Hin & H). exists r. split; [| done]. unfold addToBatch.
  destruct (isWaiting (batcher w)); simpl; [done |].
  destruct Hin as [Hin | Hin]; [left; apply elem_of_app; by left | by right].
Qed.

Lemma carried_run (p : Loop) (inputs : list (Z * string)) (w : World) :
  coherent w → carried p w → carried p (run inputs w).
Proof.
  revert w. induction inputs as [| [now id] inputs IH]; intros w Hc Hp; [done |].
  simpl. apply IH.
  - by apply coherent_addToBatch, coherent_advance.
  - by apply carried_addToBatch, carried_advance.
Qed.

(** ** When the loops in flight were started *)

Lemma started_by_fire (b : Z) (p : Loop) (w : World) :
  loops w = [p] → started_by b w → started_by b (fire p w).
Proof.
  intros Hl Hb q. rewrite (fire_single _ _ Hl). destruct (_ && _); simpl.
  - intros ->%list_elem_of_singleton. simpl. apply Hb. rewrite Hl. apply list_elem_of_here.
  - by intros ?%elem_of_nil.
Qed.

Lemma started_by_advance (b : Z) (fuel : nat) (now : Z) (w : World) :
  coherent w → started_by b w → started_by b (advance fuel now w).
Proof.
  apply (advance_keeps (started_by b)). intros w' q _ Hl. by apply started_by_fire.
Qed.

Lemma started_by_run (b : Z) (inputs : list (Z * string)) (w : World) :
  Forall (λ x, x.1 <= b) inputs → coherent w → started_by b w →
  started_by b (run inputs w).
Proof.
  revert w. induction inputs as [| [now id] inputs IH]; intros w Hin Hc Hb; [done |].
  apply Forall_cons in Hin as [Hnow Hin]. simpl in Hnow. simpl. apply IH; [done | |].
  - by apply coherent_addToBatch, coherent_advance.
  - assert (started_by b (advance_to now w)) as Hb' by by apply started_by_advance.
    intros q. unfold addToBatch. destruct (isWaiting _); simpl; [apply Hb' |].
    intros [Hq | ->%list_elem_of_singleton]%elem_of_app; [by apply Hb' | done].
Qed.

(** ** Where the loops come from *)

Lemma sourced_fire (seen : list (Z * string)) (p : Loop) (w : World) :
  loops w = [p] → sourced seen w → sourced seen (fire p w).
Proof.
  intros Hl [Hsrc Hlen]. rewrite (fire_single _ _ Hl). rewrite Hl in Hsrc, Hlen.
  unfold sourced. destruct (_ && _); cbn [loops batches]; split.
  - intros q [->%list_elem_of_singleton | Hq]; simpl.
    + destruct (Hsrc p) as [H1 H2]; [left; apply list_elem_of_here |].
      split; [done |]. unfold waitPeriodMS in *. lia.
    + apply Hsrc. by right.
  - exact Hlen.
  - intros q [?%elem_of_nil | [Hq | ->%list_elem_of_singleton]%elem_of_app]; [done | |].
    + apply Hsrc. by right.
    + apply Hsrc. left. apply list_elem_of_here.
  - rewrite length_app. simpl in *. lia.
Qed.

Lemma sourced_advance (seen : list (Z * string)) (fuel : nat) (now : Z) (w : World) :
  coherent w → sourced seen w → sourced seen (advance fuel now w).
Proof.
  apply (advance_keeps (sourced seen)). intros w' q _ Hl. by apply sourced_fire.
Qed.

Lemma sourced_addToBatch (seen : list (Z * string)) (now : Z) (id : string) (w : World) :
  sourced seen w → sourced (seen ++ [(now, id)]) (addToBatch now id w).
Proof.
  intros [Hsrc Hlen]. unfold addToBatch, sourced.
  destruct (isWaiting _); cbn [loops batches]; split.
  - intros q Hq. destruct (Hsrc q Hq). split; [| done]. apply elem_of_app. by left.
  - rewrite length_app. simpl. lia.
  - intros q [[Hq | ->%list_elem_of_singleton]%elem_of_app | Hq].
    + destruct (Hsrc q) as [H1 H2]; [by left |]. split; [| done]. apply elem_of_app. by left.
    + simpl. split; [| unfold waitPeriodMS; lia]. apply elem_of_app. right.
      apply list_elem_of_here.
    + destruct (Hsrc q) as [H1 H2]; [by right |]. split; [| done]. apply elem_of_app. by left.
  - rewrite !length_app. simpl. lia.
Qed.

Lemma sourced_run (seen inputs : list (Z * string)) (w : World) :
  coherent w → sourced seen w → sourced (seen ++ inputs) (run inputs w).
Proof.
  revert seen w. induction inputs as [| [now id] inputs IH]; intros seen w Hc Hs.
  { by rewrite app_nil_r. }
  simpl. rewrite (cons_middle _ seen inputs), app_assoc. apply IH.
  - by apply coherent_addToBatch, coherent_advance.
  - by apply sourced_addToBatch, sourced_advance.
Qed.

(** ** A batch that sees its first marker again *)

Lemma run_before_first_timer (p : Loop) (rest : list (Z * string)) (cur : string) :
  Forall (λ x, x.1 < wake p) rest →
  run rest (mkWorld (mk true (Some cur)) [p] [])
  = mkWorld (mk true (last (cur :: rest.*2))) [p] [].
Proof.
  revert cur. induction rest as [| [now id] rest IH]; intros cur Hall; [done |].
  apply Forall_cons in Hall as [Hnow Hall]. simpl in Hnow.
  cbn [run]. unfold advance_to. rewrite (advance_not_due _ _ _ p) by done.
  unfold addToBatch. cbn [batcher isWaiting loops batches].
  rewrite (IH id Hall). done.
Qed.

(** The batch ends at its first timer when the latest event id is then the
    one the batch started with: for a notification alone, for one repeated,
    and also after other event ids when the first one has come again. Any
    number of notifications before the timer gives this one emission,
    [waitPeriodMS] after the first. *)
Theorem batch_ends_at_first_timer_when_first_marker_is_latest
    (t : Z) (id : string) (rest : list (Z * string)) :
  Forall (λ x, x.1 < t + waitPeriodMS) rest →
  last (id :: rest.*2) = Some id →
  quiesce (run ((t, id) :: rest) init)
  = mkWorld new [] [mkLoop id t (t + waitPeriodMS)].
Proof.
  intros Hall Hlast. cbn [run]. unfold advance_to at 1.
  rewrite advance_idle by done.
  unfold addToBatch, init. cbn [batcher isWaiting new loops batches app].
  set (p := mkLoop id t (t + waitPeriodMS)).
  rewrite (run_before_first_timer p) by done. rewrite Hlast.
  unfold quiesce, advance_to, horizon. cbn [loops foldr].
  set (h := Z.max _ 0).
  assert (wake p <= h) as Hh by (unfold h, p, maxWaitMS, waitPeriodMS; simpl; lia).
  assert (resumptions h p + 0 = S (Z.to_nat ((h - wake p) / waitPeriodMS)))%nat as ->.
  { unfold resumptions. rewrite Nat.add_0_r, Z2Nat.inj_add; [| | lia].
    - simpl. lia.
    - apply Z.div_pos; [lia | done]. }
  cbn [advance loops earliest]. apply Z.leb_le in Hh. rewrite Hh.
  rewrite fire_single by done. cbn [batcher latestEventId].
  rewrite (bool_decide_eq_true_2 (Some id = Some (eventId p))) by done.
  rewrite andb_false_r. by rewrite advance_idle.
Qed.

(** Another event id in between, then the first one again. *)
Lemma batch_ends_at_first_timer_when_first_marker_is_latest_again :
  quiesce (run [(0, "m1"); (50, "m2"); (100, "m1")] init)
  = mkWorld new [] [mkLoop "m1" 0 (0 + waitPeriodMS)].
Proof.
  apply (batch_ends_at_first_timer_when_first_marker_is_latest 0 "m1"
           [(50, "m2"); (100, "m1")]).
  - repeat constructor.
  - reflexivity.
Defined.

(** No notification is lost: a notification that is not earlier than those
    before it is followed by an emission of ['BanList.batch'], later than
    the notification and at most [maxWaitMS] after it, whatever the event
    ids and whatever comes after. *)
Theorem every_notification_is_followed_by_a_batch
    (before after : list (Z * string)) (t : Z) (id : string) :
  Forall (λ x, x.1 <= t) before →
  ∃ q, q ∈ batches (quiesce (run (before ++ (t, id) :: after) init))
       ∧ t < wake q <= t + maxWaitMS.
Proof.
  intros Hbefore. rewrite run_app. cbn [run].
  set (w0 := run before init).
  assert (coherent w0) as Hc0 by apply coherent_run, coherent_init.
  assert (started_by t w0) as Hs0.
  { apply started_by_run; [done | apply coherent_init |]. by intros p ?%elem_of_nil. }
  set (w1 := advance_to t w0).
  assert (coherent w1) as Hc1 by by apply coherent_advance.
  assert (started_by t w1) as Hs1 by by apply started_by_advance.
  pose proof (advance_to_settles t w0 Hc0) as Hlate. fold w1 in Hlate.
  set (w2 := addToBatch t id w1).
  assert (coherent w2) as Hc2 by by apply coherent_addToBatch.
  assert (∃ p, p ∈ loops w2 ∧ start p <= t ∧ t < wake p) as (p & Hp & Hst & Hwk).
  { unfold w2, addToBatch. destruct (isWaiting (batcher w1)) eqn:Hw; simpl.
    - destruct Hc1 as [[[_ Hnew] | (p & Hl & _)] _].
      + rewrite Hnew in Hw. discriminate Hw.
      + exists p. rewrite Hl. split; [apply list_elem_of_here |].
        split; [apply Hs1 | apply Hlate]; rewrite Hl; apply list_elem_of_here.
    - exists (mkLoop id t (t + waitPeriodMS)). split.
      + apply elem_of_app. right. apply list_elem_of_here.
      + simpl. unfold waitPeriodMS. lia. }
  assert (carried p (quiesce (run after w2))) as (q & Hq & _ & Hqs & Hqw).
  { apply carried_advance; [by apply coherent_run |]. apply carried_run; [done |].
    exists p. split; [by left | done]. }
  assert (coherent (quiesce (run after w2))) as Hcq
    by by apply coherent_quiesce, coherent_run.
  destruct (quiesce_ends (run after w2)) as [Hnil _]; [by apply coherent_run |].
  rewrite Hnil in Hq. destruct Hq as [Hq%elem_of_nil | Hq]; [done |].
  exists q. split; [done |]. destruct Hcq as [_ Hmax]. specialize (Hmax q Hq). lia.
Qed.

(** The second of three notifications. *)
Lemma every_notification_is_followed_by_a_batch_second :
  ∃ q, q ∈ batches (quiesce (run ([(0, "m1")] ++ (100, "m2") :: [(300, "m3")]) init))
       ∧ 100 < wake q <= 100 + maxWaitMS.
Proof.
  apply (every_notification_is_followed_by_a_batch [(0, "m1")] [(300, "m3")] 100 "m2").
  repeat constructor. simpl. lia.
Defined.

(** No emission comes from nowhere: every emission of ['BanList.batch'] is
    made by a loop that a notification has started, at the time of that
    notification and with its event id, between [waitPeriodMS] and
    [maxWaitMS] before the emission; and there are no more emissions than
    notifications. *)
Theorem every_batch_answers_a_notification (inputs : list (Z * string)) :
  let w := quiesce (run inputs init) in
  (length (batches w) <= length inputs)%nat
  ∧ ∀ q, q ∈ batches w →
         (start q, eventId q) ∈ inputs
         ∧ waitPeriodMS <= wake q - start q <= maxWaitMS.
Proof.
  intros w.
  assert (sourced inputs w) as [Hsrc Hlen].
  { apply sourced_advance; [apply coherent_run, coherent_init |].
    apply (sourced_run [] inputs init coherent_init). split; [| simpl; lia].
    intros q [?%elem_of_nil | ?%elem_of_nil]; done. }
  assert (coherent w) as [_ Hmax] by apply coherent_quiesce, coherent_run, coherent_init.
  split; [lia |]. intros q Hq. destruct (Hsrc q) as [H1 H2]; [by right |].
  specialize (Hmax q Hq). done.
Qed.

End BatcherRunFacts.
